(** * openapi-to-ts: the schema-to-TypeScript generator of [src/generator.ts]

    A shallow embedding of the generator's core ([safeEnumKey], [safeKey],
    [refName], [mapType], [inlineObject], [generateType]) and the
    properties of it that the specification states.

    Modelling decisions.
    - JavaScript strings are Rocq strings of ASCII characters.  The
      character classes of the regular expressions ([\s], [\d], [\w],
      [[a-z]], [[A-Z]]) and [toUpperCase] are written out on ASCII; code
      points above 127 are left alone by every operation of the model.
    - An object used as a dictionary that is only read by key
      ([allSchemas]) is a [gmap string Schema] holding its own keys; an
      object whose own enumeration order is observed ([properties], read
      through [Object.entries]) is an association list in that
      enumeration order.
    - A schema that may be [undefined] at a call site is an
      [option Schema]; reading a property of [undefined] raises
      [TypeError].
    - [mapType] and [inlineObject] call each other through the schema
      mapping, so their recursion is not structural: both take a bound on
      the depth of nested calls ([fuel]) and answer [OutOfFuel] when the
      bound is reached.  A call that answers [OutOfFuel] for every bound
      is a call that never returns.
    - [generateFromYamlFile] only reads the file and joins the
      declarations of [generateType]; it is not part of the model. *)

From Stdlib Require Import String Ascii NArith Lia.
From stdpp Require Import gmap strings list.

Local Open Scope string_scope.

(** ** Characters and strings *)

Module Js.

Definition code (c : ascii) : N := N_of_ascii c.

Definition in_range (lo hi : N) (c : ascii) : bool :=
  ((lo <=? code c) && (code c <=? hi))%N.

(** [[a-z]], [[A-Z]], [\d] *)
Definition is_lower (c : ascii) : bool := in_range 97 122 c.
Definition is_upper (c : ascii) : bool := in_range 65 90 c.
Definition is_digit (c : ascii) : bool := in_range 48 57 c.

(** [\s] on ASCII: tab, line feed, vertical tab, form feed, carriage
    return and space. *)
Definition is_space (c : ascii) : bool :=
  in_range 9 13 c || (code c =? 32)%N.

(** [\w]: letters, digits and the underscore. *)
Definition is_word (c : ascii) : bool :=
  is_lower c || is_upper c || is_digit c || (code c =? 95)%N.

Definition nl : string := String "010"%char EmptyString.
Definition dquote : string := String "034"%char EmptyString.

Definition is_empty (s : string) : bool :=
  match s with EmptyString => true | String _ _ => false end.

(** [String.prototype.trim] *)
Fixpoint trimStart (s : string) : string :=
  match s with
  | EmptyString => EmptyString
  | String c r => if is_space c then trimStart r else s
  end.

Fixpoint trimEnd (s : string) : string :=
  match s with
  | EmptyString => EmptyString
  | String c r =>
      let r' := trimEnd r in
      if is_space c && is_empty r' then EmptyString else String c r'
  end.

Definition trim (s : string) : string := trimEnd (trimStart s).

(** [String.prototype.toUpperCase] *)
Definition upper_char (c : ascii) : ascii :=
  if is_lower c then ascii_of_N (code c - 32) else c.

Fixpoint toUpperCase (s : string) : string :=
  match s with
  | EmptyString => EmptyString
  | String c r => String (upper_char c) (toUpperCase r)
  end.

(** [s.replace(pat, rep)] with a string pattern: the first occurrence of
    [pat] only.  ([rep] is taken literally; the source only passes the
    empty string.) *)
Fixpoint strip_prefix (p s : string) : option string :=
  match p with
  | EmptyString => Some s
  | String a p' =>
      match s with
      | EmptyString => None
      | String b s' => if Ascii.eqb a b then strip_prefix p' s' else None
      end
  end.

Fixpoint replace_first (pat rep s : string) : string :=
  match strip_prefix pat s with
  | Some rest => rep +:+ rest
  | None =>
      match s with
      | EmptyString => EmptyString
      | String c r => String c (replace_first pat rep r)
      end
  end.

(** [Array.prototype.join] *)
Fixpoint join (sep : string) (l : list string) : string :=
  match l with
  | [] => EmptyString
  | [x] => x
  | x :: l' => x +:+ sep +:+ join sep l'
  end.

(** [Array.prototype.includes] on an array of strings *)
Definition includes (l : list string) (x : string) : bool :=
  existsb (String.eqb x) l.

End Js.

Import Js.

(** ** Identifier sanitizers *)

(** [.replace(/[-\s]+/g, "_")]: every maximal run of hyphens and white
    space becomes one underscore.  [in_run] tells that the previous
    character belonged to the run being replaced. *)
Definition is_sep (c : ascii) : bool := (code c =? 45)%N || is_space c.

Fixpoint replace_sep_runs (in_run : bool) (s : string) : string :=
  match s with
  | EmptyString => EmptyString
  | String c r =>
      if is_sep c then
        if in_run then replace_sep_runs true r
        else String "_"%char (replace_sep_runs true r)
      else String c (replace_sep_runs false r)
  end.

(** [.replace(/([a-z0-9])([A-Z])/g, "$1_$2")]: scanning from the left, a
    lower-case letter or digit followed by an upper-case letter is matched
    (both characters are consumed) and written back with an underscore in
    between. *)
Fixpoint replace_camel (s : string) : string :=
  match s with
  | EmptyString => EmptyString
  | String c1 r =>
      match r with
      | String c2 r' =>
          if (is_lower c1 || is_digit c1) && is_upper c2
          then String c1 (String "_"%char (String c2 (replace_camel r')))
          else String c1 (replace_camel r)
      | EmptyString => String c1 EmptyString
      end
  end.

(** [/^\d/.test(s)] *)
Definition starts_with_digit (s : string) : bool :=
  match s with
  | String c _ => is_digit c
  | EmptyString => false
  end.

Definition safeEnumKey (key : string) : string :=
  let safeKey := replace_sep_runs false (trim key) in
  let safeKey := replace_camel safeKey in
  let safeKey := if starts_with_digit safeKey then "_" +:+ safeKey else safeKey in
  toUpperCase safeKey.

(** [/^[a-zA-Z_]\w*$/.test(key)] *)
Fixpoint all_word (s : string) : bool :=
  match s with
  | EmptyString => true
  | String c r => is_word c && all_word r
  end.

Definition is_identifier (key : string) : bool :=
  match key with
  | EmptyString => false
  | String c r => (is_lower c || is_upper c || (code c =? 95)%N) && all_word r
  end.

Definition safeKey (key : string) : string :=
  if is_identifier key then key else "'" +:+ key +:+ "'".

(** ** Data model *)

(** [interface Schema]: every field is optional; [ref] is the field
    [$ref].  [properties] lists the entries of the object in the order
    [Object.entries] yields them. *)
#[warnings="-register-all"]
Inductive Schema : Type := mkSchema {
  type : option string;
  enum : option (list string);
  properties : option (list (string * Schema));
  required : option (list string);
  oneOf : option (list Schema);
  anyOf : option (list Schema);
  allOf : option (list Schema);
  ref : option string;
  items : option Schema
}.

(** [interface GeneratorOptions] *)
Record GeneratorOptions : Type := mkOptions {
  interfacePrefix : option string;
  inlineRef : option bool
}.

(** The empty schema [{}] and the default options [{}]. *)
Definition emptySchema : Schema :=
  mkSchema None None None None None None None None None.

Definition defaultOptions : GeneratorOptions := mkOptions None None.

(** Truthiness of an optional string ([schema.$ref]): present and not
    empty; of an optional boolean ([options.inlineRef]): present and
    true. *)
Definition truthy_string (o : option string) : option string :=
  match o with
  | Some ((String _ _) as r) => Some r
  | _ => None
  end.

Definition truthy_bool (o : option bool) : bool :=
  match o with
  | Some b => b
  | None => false
  end.

(** [options.interfacePrefix ?? "I"] *)
Definition prefixOf (options : GeneratorOptions) : string :=
  match interfacePrefix options with
  | Some p => p
  | None => "I"
  end.

(** ** Results *)

(** A call returns a value, throws the [TypeError] of a property read on
    [undefined], or exceeds the bound on nested calls. *)
Inductive result (A : Type) : Type :=
  | Ok (a : A)
  | TypeError
  | OutOfFuel.

Arguments Ok {A} a.
Arguments TypeError {A}.
Arguments OutOfFuel {A}.

Definition bind {A B : Type} (r : result A) (k : A -> result B) : result B :=
  match r with
  | Ok a => k a
  | TypeError => TypeError
  | OutOfFuel => OutOfFuel
  end.

Notation "x <- r ;; k" := (bind r (fun x => k))
  (at level 100, r at next level, right associativity).

(** [Array.prototype.map] with a callback that may not return: the
    elements are visited from the left and the first failure ends the
    traversal. *)
Fixpoint array_map {A B : Type} (f : A -> result B) (l : list A) : result (list B) :=
  match l with
  | [] => Ok []
  | x :: l' =>
      y <- f x ;;
      ys <- array_map f l' ;;
      Ok (y :: ys)
  end.

(** ** The generator *)

Definition schemasPrefix : string := "#/components/schemas/".

Definition refName (ref : string) (options : GeneratorOptions) : string :=
  let name := replace_first schemasPrefix EmptyString ref in
  prefixOf options +:+ name.

(** The string-literal type of one enum value: [`"${v}"`]. *)
Definition literal (v : string) : string := dquote +:+ v +:+ dquote.

Fixpoint mapType (fuel : nat) (schema : option Schema)
    (allSchemas : gmap string Schema) (options : GeneratorOptions)
    {struct fuel} : result string :=
  match fuel with
  | 0 => OutOfFuel
  | S fuel =>
    match schema with
    | None => Ok "any"
    | Some schema =>
      match truthy_string (ref schema) with
      | Some r =>
          if truthy_bool (inlineRef options) then
            let refSchema := allSchemas !! replace_first schemasPrefix EmptyString r in
            inlineObject fuel refSchema allSchemas true options
          else Ok (refName r options)
      | None =>
      match oneOf schema with
      | Some l =>
          ts <- array_map (fun s => mapType fuel (Some s) allSchemas options) l ;;
          Ok (join " | " ts)
      | None =>
      match anyOf schema with
      | Some l =>
          ts <- array_map (fun s => mapType fuel (Some s) allSchemas options) l ;;
          Ok (join " | " ts)
      | None =>
      match allOf schema with
      | Some l =>
          ts <- array_map (fun s => mapType fuel (Some s) allSchemas options) l ;;
          Ok (join " & " ts)
      | None =>
      match type schema with
      | None => Ok "any"
      | Some t =>
          if String.eqb t "integer" || String.eqb t "number" then Ok "number"
          else if String.eqb t "string" then
            match enum schema with
            | Some ((_ :: _) as e) => Ok (join " | " (map literal e))
            | _ => Ok "string"
            end
          else if String.eqb t "boolean" then Ok "boolean"
          else if String.eqb t "array" then
            match items schema with
            | Some i =>
                itemType <- mapType fuel (Some i) allSchemas options ;;
                Ok (itemType +:+ "[]")
            | None => Ok "any[]"
            end
          else if String.eqb t "object" then
            match properties schema with
            | Some _ => inlineObject fuel (Some schema) allSchemas true options
            | None => Ok "{ [key: string]: any }"
            end
          else Ok "any"
      end end end end end
    end
  end

with inlineObject (fuel : nat) (schema : option Schema)
    (allSchemas : gmap string Schema) (withBraces : bool)
    (options : GeneratorOptions) {struct fuel} : result string :=
  match fuel with
  | 0 => OutOfFuel
  | S fuel =>
    match schema with
    | None => TypeError
    | Some schema =>
      match properties schema with
      | None => Ok "{}"
      | Some ps =>
          lines <- array_map (fun '(prop, propSchema) =>
            let required :=
              match required schema with
              | Some req => includes req prop
              | None => false
              end in
            typeStr <- mapType fuel (Some propSchema) allSchemas options ;;
            Ok ("  " +:+ safeKey prop +:+ (if required then EmptyString else "?")
                  +:+ ": " +:+ typeStr +:+ ";")) ps ;;
          Ok ("{" +:+ nl +:+ join nl lines +:+ nl +:+ "}")
      end
    end
  end.

(** The callback of [generateType] for one variant of a combinator:
    [s => s.$ref ? refName(s.$ref, options)
                 : inlineObject(s, allSchemas, true, options)]. *)
Definition variantType (fuel : nat) (allSchemas : gmap string Schema)
    (options : GeneratorOptions) (s : Schema) : result string :=
  match truthy_string (ref s) with
  | Some r => Ok (refName r options)
  | None => inlineObject fuel (Some s) allSchemas true options
  end.

(** [a || b] on two optional arrays (an array is always truthy). *)
Definition js_or {A : Type} (a b : option A) : option A :=
  match a with
  | Some _ => a
  | None => b
  end.

(** One member line of an enum declaration. *)
Definition enumMember (v : string) : string :=
  "  " +:+ safeEnumKey v +:+ " = " +:+ dquote +:+ v +:+ dquote +:+ ",".

(** [generateType] is not recursive; [fuel] bounds the calls it makes to
    [inlineObject].  Inside the branch guarded by
    [schema.oneOf || schema.anyOf] the expression
    [schema.oneOf || schema.anyOf || []] is that same array. *)
Definition generateType (fuel : nat) (name : string) (schema : Schema)
    (allSchemas : gmap string Schema) (options : GeneratorOptions) : result string :=
  let interfacePrefix := prefixOf options in
  match enum schema with
  | Some e =>
      Ok ("export enum " +:+ interfacePrefix +:+ name +:+ " {" +:+ nl
            +:+ join nl (map enumMember e) +:+ nl +:+ "}")
  | None =>
  match js_or (oneOf schema) (anyOf schema) with
  | Some vs =>
      variants <- array_map (variantType fuel allSchemas options) vs ;;
      Ok ("export type " +:+ interfacePrefix +:+ name +:+ " = "
            +:+ join " | " variants +:+ ";")
  | None =>
  match allOf schema with
  | Some vs =>
      parts <- array_map (variantType fuel allSchemas options) vs ;;
      Ok ("export type " +:+ interfacePrefix +:+ name +:+ " = "
            +:+ join " & " parts +:+ ";")
  | None =>
      if match type schema with Some t => String.eqb t "object" | None => false end
         || bool_decide (is_Some (properties schema))
      then
        objStr <- inlineObject fuel (Some schema) allSchemas true options ;;
        Ok ("export interface " +:+ interfacePrefix +:+ name +:+ " " +:+ objStr)
      else Ok ("export type " +:+ interfacePrefix +:+ name +:+ " = any;")
  end end end.

(** ** Vocabulary of the statements *)

(** [a] occurs in [b] as a contiguous piece. *)
Definition occurs_in (a b : string) : Prop :=
  exists pre post, b = pre +:+ a +:+ post.

(** [r ⊑ r']: [r'] is [r], or [r] ran out of fuel. *)
Definition below {A : Type} (r r' : result A) : Prop :=
  r = OutOfFuel \/ r = r'.

(** The schema with its [enum] field removed. *)
Definition withoutEnum (s : Schema) : Schema :=
  mkSchema (type s) None (properties s) (required s)
           (oneOf s) (anyOf s) (allOf s) (ref s) (items s).

(** The values of [type] that the [switch] of [mapType] has a case for. *)
Definition recognizedType (t : option string) : bool :=
  match t with
  | Some t =>
      String.eqb t "integer" || String.eqb t "number" || String.eqb t "string"
      || String.eqb t "boolean" || String.eqb t "array" || String.eqb t "object"
  | None => false
  end.

(** One field line of an inline object: two spaces, the sanitized key,
    a question mark unless the property is required, a colon and the
    type expression, closed by a semicolon. *)
Definition fieldLine (s : Schema) (prop typeStr : string) : string :=
  "  " +:+ safeKey prop
    +:+ (if match required s with
            | Some req => includes req prop
            | None => false
            end
         then EmptyString else "?")
    +:+ ": " +:+ typeStr +:+ ";".

(** Every property of the list is mapped by a call that returns. *)
Definition returning (m : gmap string Schema) (o : GeneratorOptions)
    (ps : list (string * Schema)) : Prop :=
  forall p, p ∈ ps -> exists fuel t, mapType fuel (Some p.2) m o = Ok t.

(** A bound on the depth of the nested calls that rendering a schema
    makes when references are not inlined: [objectCalls] for
    [inlineObject], [calls] for [mapType]. *)
Definition maxOpt {A : Type} (f : A -> nat) (o : option A) : nat :=
  match o with
  | Some a => f a
  | None => 0
  end.

Fixpoint calls (s : Schema) : nat :=
  S (max_list
       [ S (maxOpt (max_list_with (fun p => calls p.2)) (properties s));
         maxOpt (max_list_with calls) (oneOf s);
         maxOpt (max_list_with calls) (anyOf s);
         maxOpt (max_list_with calls) (allOf s);
         maxOpt calls (items s) ]).

Definition objectCalls (s : Schema) : nat :=
  S (maxOpt (max_list_with (fun p => calls p.2)) (properties s)).

Definition callsOpt (schema : option Schema) : nat :=
  match schema with
  | Some s => calls s
  | None => 1
  end.

(** The schemas that [mapType] maps to the empty string: a [$ref] that is
    not inlined and whose declared-type name is empty, or an empty
    [oneOf], [anyOf] or [allOf] (the first one present), or one whose only
    variant is again such a schema. *)
Definition onlyEmpty (f : Schema -> bool) (l : list Schema) : bool :=
  match l with
  | [] => true
  | [x] => f x
  | _ => false
  end.

Fixpoint emptyType (o : GeneratorOptions) (s : Schema) : bool :=
  match truthy_string (ref s) with
  | Some r => negb (truthy_bool (inlineRef o)) && is_empty (refName r o)
  | None =>
  match oneOf s with
  | Some l => onlyEmpty (emptyType o) l
  | None =>
  match anyOf s with
  | Some l => onlyEmpty (emptyType o) l
  | None =>
  match allOf s with
  | Some l => onlyEmpty (emptyType o) l
  | None => false
  end end end end.

(** [all_chars P s]: every character of [s] satisfies [P]. *)
Fixpoint all_chars (P : ascii -> bool) (s : string) : bool :=
  match s with
  | EmptyString => true
  | String c r => P c && all_chars P r
  end.

(** Schemas built from one field: an array of [i], the union of [l]. *)
Definition arrayOf (i : Schema) : Schema :=
  mkSchema (Some "array") None None None None None None None (Some i).

Definition unionOf (l : list Schema) : Schema :=
  mkSchema None None None None (Some l) None None None None.

Definition intersectionOf (l : list Schema) : Schema :=
  mkSchema None None None None None None (Some l) None None.

(** [occursb pat s]: [pat] occurs somewhere in [s] ([s.includes(pat)]). *)
Fixpoint occursb (pat s : string) : bool :=
  match strip_prefix pat s with
  | Some _ => true
  | None =>
      match s with
      | EmptyString => false
      | String _ r => occursb pat r
      end
  end.

(** [schema.required?.includes(prop)] *)
Definition requiredProp (s : Schema) (prop : string) : bool :=
  match required s with
  | Some req => includes req prop
  | None => false
  end.

(** ** The driver *)

(** The parsed document, as far as the driver reads it:
    [doc.components?.schemas].  The entries of [schemas] are listed in the
    order [Object.entries] yields them. *)
Record Components : Type := mkComponents {
  schemas : option (list (string * Schema))
}.

Record Document : Type := mkDocument {
  components : option Components
}.

(** What a call of the driver does: it returns the generated text, throws
    the [Error] of a missing file, throws a [TypeError], or exceeds every
    bound on nested calls. *)
Inductive outcome : Type :=
  | Returned (text : string)
  | ThrewError (message : string)
  | ThrewTypeError
  | Unbounded.

Definition outcome_of (r : result string) : outcome :=
  match r with
  | Ok t => Returned t
  | TypeError => ThrewTypeError
  | OutOfFuel => Unbounded
  end.

(** The object [schemas] read by key. *)
Definition schemaMap (entries : list (string * Schema)) : gmap string Schema :=
  list_to_map entries.

Section Driver.

(** [fs.existsSync], [fs.readFileSync(_, "utf8")] and [yaml.load]; a
    document that is [undefined] (an empty file) is [None].  Exceptions
    raised by the two libraries themselves are not modelled. *)
Variables (existsSync : string -> bool) (readFileSync : string -> string)
          (load : string -> option Document).

Definition generateFromYamlFile (fuel : nat) (filePath : string)
    (options : GeneratorOptions) : outcome :=
  if negb (existsSync filePath) then
    ThrewError ("YAML file not found: " +:+ filePath)
  else
    let yamlText := readFileSync filePath in
    match load yamlText with
    | None => ThrewTypeError
    | Some doc =>
        let schemas :=
          match components doc with
          | Some c => match schemas c with Some e => e | None => [] end
          | None => []
          end in
        outcome_of
          (ds <- array_map (fun '(name, schema) =>
                   generateType fuel name schema (schemaMap schemas) options) schemas ;;
           Ok (join (nl +:+ nl) ds))
    end.

End Driver.

(** ** Sample schemas *)

Module Samples.

Definition refTo (r : string) : Schema :=
  mkSchema None None None None None None None (Some r) None.

Definition ofType (t : string) : Schema :=
  mkSchema (Some t) None None None None None None None None.

Definition object (ps : list (string * Schema)) (req : option (list string)) : Schema :=
  mkSchema (Some "object") None (Some ps) req None None None None None.

(** [{ A: {$ref: "B"}, B: {type: "string"} }] *)
Definition roundTrip : gmap string Schema :=
  <["A" := refTo "B"]> (<["B" := ofType "string"]> ∅).

(** [{ A: {type: "object", properties: {id: {type: "integer"}, b: {$ref: B}}},
       B: {type: "object", properties: {a: {$ref: A}}} }] *)
Definition cyclicA : Schema :=
  object [("id", ofType "integer"); ("b", refTo "#/components/schemas/B")] None.

Definition cyclicB : Schema :=
  object [("a", refTo "#/components/schemas/A")] None.

Definition cyclic : gmap string Schema :=
  <["A" := cyclicA]> (<["B" := cyclicB]> ∅).

Definition inlining : GeneratorOptions := mkOptions None (Some true).

(** [{ enum: ["red", "dark-blue"], oneOf: [{type: "string"}] }] *)
Definition colors : Schema :=
  mkSchema None (Some ["red"; "dark-blue"]) None None
    (Some [ofType "string"]) None None None None.

(** [{ oneOf: [{type: "string"}, {type: "integer"}, {$ref: Uuid}] }] *)
Definition identifier : Schema :=
  mkSchema None None None None
    (Some [ofType "string"; ofType "integer"; refTo "#/components/schemas/Uuid"])
    None None None None.

(** [{ enum: ["a", "b"] }] and [{ type: "integer", enum: ["1", "2"] }] *)
Definition letters : Schema :=
  mkSchema None (Some ["a"; "b"]) None None None None None None None.

Definition digits : Schema :=
  mkSchema (Some "integer") (Some ["1"; "2"]) None None None None None None None.

(** An object with three properties, of which [a] is required, and an
    intersection of three variants, the first and the last alike. *)
Definition record3 : Schema :=
  object [("b", ofType "string"); ("a", ofType "integer"); ("b2", ofType "string")]
         (Some ["a"]).

Definition all3 : Schema :=
  mkSchema None None None None None None
    (Some [ofType "string"; ofType "integer"; ofType "string"]) None None.

(** [{ oneOf: [] }] and [{ type: "object", properties: {a: {$ref: Missing}} }] *)
Definition emptyUnion : Schema :=
  mkSchema None None None None (Some []) None None None None.

Definition dangling : Schema :=
  object [("a", refTo "#/components/schemas/Missing")] None.

(** The enum value [say "hi"] and a string schema that lists it. *)
Definition quoted : string := "say " +:+ dquote +:+ "hi" +:+ dquote.

Definition greeting : Schema :=
  mkSchema (Some "string") (Some ["plain"; quoted]) None None None None None None None.

(** A file system with the one file [api.yaml], whose document declares
    the schemas [Good] and [Bad]. *)
Definition apiSchemas : list (string * Schema) :=
  [("Good", record3); ("Bad", dangling)].

Definition apiExists (path : string) : bool := String.eqb path "api.yaml".

Definition apiRead (path : string) : string := "components: ...".

Definition apiLoad (text : string) : option Document :=
  Some (mkDocument (Some (mkComponents (Some apiSchemas)))).

End Samples.

Import Samples.

(** * Properties *)

(** ** Facts about strings *)

Section StringFacts.

Lemma str_app_nil (b : string) : EmptyString +:+ b = b.
Proof. reflexivity. Qed.

Lemma str_app_cons (x : ascii) (a b : string) :
  String x a +:+ b = String x (a +:+ b).
Proof. reflexivity. Qed.

Lemma str_app_assoc (a b c : string) : (a +:+ b) +:+ c = a +:+ (b +:+ c).
Proof.
  induction a as [|x a IH]; [reflexivity |].
  now rewrite !str_app_cons, IH.
Qed.

Lemma str_app_empty_r (a : string) : a +:+ EmptyString = a.
Proof.
  induction a as [|x a IH]; [reflexivity |].
  now rewrite str_app_cons, IH.
Qed.

Lemma str_app_eq_empty (a b : string) :
  a +:+ b = EmptyString <-> a = EmptyString /\ b = EmptyString.
Proof.
  destruct a as [|x a]; [rewrite str_app_nil | rewrite str_app_cons]; split.
  - intros ->. now split.
  - now intros [_ ->].
  - discriminate.
  - now intros [? _].
Qed.

Lemma occurs_in_refl (a : string) : occurs_in a a.
Proof. exists EmptyString, EmptyString. now rewrite str_app_nil, str_app_empty_r. Qed.

Lemma occurs_in_append_l (a b c : string) : occurs_in a b -> occurs_in a (b +:+ c).
Proof.
  intros (pre & post & ->). exists pre, (post +:+ c).
  now rewrite !str_app_assoc.
Qed.

Lemma occurs_in_append_r (a b c : string) : occurs_in a b -> occurs_in a (c +:+ b).
Proof.
  intros (pre & post & ->). exists (c +:+ pre), post.
  now rewrite !str_app_assoc.
Qed.

Lemma join_cons (sep x : string) (l : list string) :
  l <> [] -> join sep (x :: l) = x +:+ sep +:+ join sep l.
Proof. destruct l; [congruence | reflexivity]. Qed.

Lemma occurs_in_join (sep x : string) (l : list string) :
  x ∈ l -> occurs_in x (join sep l).
Proof.
  induction l as [|y l IH]; intros Hin.
  - inversion Hin.
  - destruct l as [|z l].
    + apply list_elem_of_singleton in Hin as ->. apply occurs_in_refl.
    + rewrite join_cons by discriminate.
      apply elem_of_cons in Hin as [-> | Hin].
      * apply occurs_in_append_l, occurs_in_refl.
      * apply occurs_in_append_r, occurs_in_append_r, IH, Hin.
Qed.

(** With a separator that is not empty, a joined text is empty only for
    the empty array and for the array holding one empty string. *)
Lemma join_eq_empty (sep : string) (l : list string) :
  sep <> EmptyString ->
  join sep l = EmptyString <-> l = [] \/ l = [EmptyString].
Proof.
  intros Hsep. destruct l as [|x [|y l]]; simpl.
  - split; [now left | reflexivity].
  - split; [intros ->; now right | intros [? | [= ->]]; [discriminate | reflexivity]].
  - split.
    + intros H. apply str_app_eq_empty in H as [_ H].
      apply str_app_eq_empty in H as [H _]. contradiction.
    + intros [? | ?]; discriminate.
Qed.

End StringFacts.

(** ** Facts about [array_map] *)

Section ArrayMap.

Context {A B : Type}.
Implicit Types (f g : A -> result B) (l : list A).

(** The array returned has one element per input element, in the input
    order, and is returned exactly when every call returns. *)
Lemma array_map_Ok f l (ys : list B) :
  array_map f l = Ok ys <-> Forall2 (fun x y => f x = Ok y) l ys.
Proof.
  revert ys. induction l as [|x l IH]; intros ys; simpl.
  - split.
    + intros [= <-]. constructor.
    + intros H. inversion H. reflexivity.
  - split.
    + destruct (f x) as [y| |] eqn:Hx; simpl; try discriminate.
      destruct (array_map f l) as [zs| |] eqn:Hl; simpl; try discriminate.
      intros [= <-]. constructor; [assumption | now apply IH].
    + intros H. inversion H as [|? y ? zs Hx Hl]; subst.
      rewrite Hx. simpl. apply IH in Hl. rewrite Hl. reflexivity.
Qed.

Lemma array_map_ext f g l :
  (forall x, x ∈ l -> f x = g x) -> array_map f l = array_map g l.
Proof.
  induction l as [|x l IH]; intros H; simpl; [reflexivity |].
  rewrite (H x) by apply list_elem_of_here.
  rewrite IH; [reflexivity |].
  intros y Hy. apply H. now apply list_elem_of_further.
Qed.

Lemma array_map_app f l1 l2 :
  array_map f (l1 ++ l2)%list =
  (ys1 <- array_map f l1 ;; ys2 <- array_map f l2 ;; Ok (ys1 ++ ys2)%list).
Proof.
  induction l1 as [|x l1 IH]; simpl.
  - destruct (array_map f l2); reflexivity.
  - destruct (f x); simpl; try reflexivity.
    rewrite IH. destruct (array_map f l1); simpl; try reflexivity.
    destruct (array_map f l2); reflexivity.
Qed.

End ArrayMap.

(** ** Fuel *)

Lemma below_refl {A : Type} (r : result A) : below r r.
Proof. now right. Qed.

Lemma below_bind {A B : Type} (r r' : result A) (k k' : A -> result B) :
  below r r' -> (forall a, below (k a) (k' a)) -> below (bind r k) (bind r' k').
Proof.
  intros [-> | <-] Hk; [now left |].
  destruct r; simpl; [apply Hk | now right | now right].
Qed.

Lemma below_array_map {A B : Type} (f g : A -> result B) (l : list A) :
  (forall x, below (f x) (g x)) -> below (array_map f l) (array_map g l).
Proof.
  intros H. induction l as [|x l IH]; simpl; [apply below_refl |].
  apply below_bind; [apply H |]. intros y.
  apply below_bind; [apply IH |]. intros ys. apply below_refl.
Qed.

Lemma below_Ok {A : Type} (r r' : result A) (a : A) :
  below r r' -> r = Ok a -> r' = Ok a.
Proof. intros [-> | <-]; [discriminate | trivial]. Qed.

Ltac below_step IHm IHi :=
  repeat first
    [ apply below_refl | apply IHm | apply IHi
    | apply below_bind; [| intros ?]
    | apply below_array_map; intros ?
    | match goal with |- below (match ?x with _ => _ end) _ => destruct x end
    | match goal with |- below (if ?x then _ else _) _ => destruct x end ].

(** The bodies of [mapType] and [inlineObject] are monotone in the
    answers of their recursive calls. *)
Lemma fuel_lift (m : gmap string Schema) (o : GeneratorOptions) (n k : nat) :
  (forall s, below (mapType n s m o) (mapType k s m o)) ->
  (forall s w, below (inlineObject n s m w o) (inlineObject k s m w o)) ->
  (forall s, below (mapType (S n) s m o) (mapType (S k) s m o)) /\
  (forall s w, below (inlineObject (S n) s m w o) (inlineObject (S k) s m w o)).
Proof.
  intros IHm IHi. split.
  - intros [s|]; cbn [mapType]; below_step IHm IHi.
  - intros [s|] w; cbn [inlineObject]; below_step IHm IHi.
Qed.

(** One more unit of fuel never changes an answer that was reached. *)
Lemma fuel_step (m : gmap string Schema) (o : GeneratorOptions) (n : nat) :
  (forall s, below (mapType n s m o) (mapType (S n) s m o)) /\
  (forall s w, below (inlineObject n s m w o) (inlineObject (S n) s m w o)).
Proof.
  induction n as [|n [IHm IHi]]; [split; intros; now left |].
  now apply fuel_lift.
Qed.

Lemma below_trans {A : Type} (r1 r2 r3 : result A) :
  below r1 r2 -> below r2 r3 -> below r1 r3.
Proof. intros [-> | ->] H; [now left | exact H]. Qed.

Lemma fuel_mono (m : gmap string Schema) (o : GeneratorOptions) (n k : nat) :
  n <= k ->
  (forall s, below (mapType n s m o) (mapType k s m o)) /\
  (forall s w, below (inlineObject n s m w o) (inlineObject k s m w o)).
Proof.
  induction 1 as [|k _ [IHm IHi]]; [split; intros; apply below_refl |].
  destruct (fuel_step m o k) as [Hm Hi].
  split; intros; eapply below_trans; eauto.
Qed.

Lemma mapType_more_fuel m o n k s t :
  n <= k -> mapType n s m o = Ok t -> mapType k s m o = Ok t.
Proof. intros Hle. apply below_Ok. now apply fuel_mono. Qed.

Lemma inlineObject_more_fuel m o n k s w t :
  n <= k -> inlineObject n s m w o = Ok t -> inlineObject k s m w o = Ok t.
Proof. intros Hle. apply below_Ok. now apply fuel_mono. Qed.

(** Two answers reached with different amounts of fuel are the same
    answer. *)
Lemma mapType_fuel_agree m o n k s (r1 r2 : result string) :
  mapType n s m o = r1 -> mapType k s m o = r2 ->
  r1 <> OutOfFuel -> r2 <> OutOfFuel -> r1 = r2.
Proof.
  intros H1 H2 N1 N2.
  destruct (Nat.le_ge_cases n k) as [Hle | Hle];
    destruct (proj1 (fuel_mono m o _ _ Hle) s) as [E | E]; congruence.
Qed.

(** ** Identifier sanitizer *)

(** C7. The enum-member sanitizer turns [user-name] into [USER_NAME],
    [2fa] into [_2FA] and [userName] into [USER_NAME]; it is a total
    function of its input: every string has exactly one image. *)
Theorem safeEnumKey_examples :
  safeEnumKey "user-name" = "USER_NAME" /\
  safeEnumKey "2fa" = "_2FA" /\
  safeEnumKey "userName" = "USER_NAME" /\
  (forall key : string, exists! k : string, safeEnumKey key = k).
Proof.
  repeat split; try reflexivity.
  intros key. exists (safeEnumKey key). split; [reflexivity | auto].
Qed.

(** ** References *)

Lemma mapType_named_ref fuel s r m o :
  truthy_string (ref s) = Some r ->
  truthy_bool (inlineRef o) = false ->
  mapType (S fuel) (Some s) m o = Ok (refName r o).
Proof. intros Hr Hi. cbn [mapType]. now rewrite Hr, Hi. Qed.

Lemma mapType_inline_ref fuel s r m o :
  truthy_string (ref s) = Some r ->
  truthy_bool (inlineRef o) = true ->
  mapType (S fuel) (Some s) m o =
  inlineObject fuel (m !! replace_first schemasPrefix EmptyString r) m true o.
Proof. intros Hr Hi. cbn [mapType]. now rewrite Hr, Hi. Qed.

Lemma roundTrip_A : roundTrip !! "A" = Some (refTo "B").
Proof. reflexivity. Qed.

Lemma roundTrip_B : roundTrip !! "B" = Some (ofType "string").
Proof. reflexivity. Qed.

Lemma roundTrip_inlined fuel prefix :
  mapType (S (S fuel)) (Some (refTo "B")) roundTrip (mkOptions prefix (Some true))
  = Ok "{}".
Proof.
  rewrite (mapType_inline_ref _ _ "B") by reflexivity.
  change (replace_first schemasPrefix EmptyString "B") with "B".
  rewrite roundTrip_B. reflexivity.
Qed.

(** C1, as the code has it.  In the mapping
    [{ A: {$ref: "B"}, B: {type: "string"} }], mapping schema [A] without
    inlining yields the declared-type name of [B], the naming prefix
    followed by [B] ([IB] under the default prefix); with [inlineRef] set
    it yields the empty-object literal [{}], because the referenced schema
    goes through the inline object renderer and [B] has no properties. *)
Theorem ref_round_trip (fuel : nat) (prefix : option string) :
  mapType (S fuel) (roundTrip !! "A") roundTrip (mkOptions prefix (Some false))
    = Ok (prefixOf (mkOptions prefix (Some false)) +:+ "B") /\
  mapType (S fuel) (roundTrip !! "A") roundTrip (mkOptions prefix None)
    = Ok (prefixOf (mkOptions prefix None) +:+ "B") /\
  mapType (S fuel) (roundTrip !! "A") roundTrip defaultOptions = Ok "IB" /\
  mapType (S (S fuel)) (roundTrip !! "A") roundTrip (mkOptions prefix (Some true))
    = Ok "{}".
Proof.
  rewrite roundTrip_A. split; [| split; [| split]].
  - now rewrite (mapType_named_ref _ _ "B").
  - now rewrite (mapType_named_ref _ _ "B").
  - now rewrite (mapType_named_ref _ _ "B").
  - apply roundTrip_inlined.
Qed.

(** C1 as stated fails: with [inlineRef] set, no run of [mapType] on
    schema [A] yields the text [string]. *)
Lemma ref_round_trip_inline_not_string :
  ~ exists fuel : nat,
      mapType fuel (roundTrip !! "A") roundTrip inlining = Ok "string".
Proof.
  intros [fuel H]. rewrite roundTrip_A in H.
  destruct fuel as [|[|fuel]]; [discriminate H | discriminate H |].
  unfold inlining in H. rewrite roundTrip_inlined in H. discriminate H.
Qed.

(** ** Declarations *)

(** C4. Whatever the declaration name, a schema that carries both [enum]
    and [oneOf] is emitted as a named enum declaration: the [enum] test
    comes first and the union branch is not reached. *)
Theorem enum_wins_over_oneOf (fuel : nat) (name : string) (s : Schema)
    (m : gmap string Schema) (o : GeneratorOptions)
    (e : list string) (vs : list Schema)
    (He : enum s = Some e) (Hv : oneOf s = Some vs) :
  generateType fuel name s m o =
  Ok ("export enum " +:+ prefixOf o +:+ name +:+ " {" +:+ nl
        +:+ join nl (map enumMember e) +:+ nl +:+ "}").
Proof. unfold generateType. now rewrite He. Qed.

Lemma enum_wins_over_oneOf_witness :
  generateType 0 "Color" colors ∅ defaultOptions
  = Ok ("export enum IColor {" +:+ nl +:+ "  RED = " +:+ dquote +:+ "red" +:+ dquote +:+ ","
        +:+ nl +:+ "  DARK_BLUE = " +:+ dquote +:+ "dark-blue" +:+ dquote +:+ ","
        +:+ nl +:+ "}").
Proof.
  exact (enum_wins_over_oneOf 0 "Color" colors ∅ defaultOptions
           ["red"; "dark-blue"] [ofType "string"] eq_refl eq_refl).
Defined.

Lemma occurs_in_trans (a b c : string) :
  occurs_in a b -> occurs_in b c -> occurs_in a c.
Proof.
  intros (p1 & q1 & ->) (p2 & q2 & ->).
  exists (p2 +:+ p1), (q1 +:+ q2). now rewrite !str_app_assoc.
Qed.

Lemma occurs_in_join_map (f : string -> string) (sep v : string) (l : list string) :
  v ∈ l -> occurs_in (f v) (join sep (map f l)).
Proof.
  intros Hv. apply occurs_in_join, list_elem_of_In, in_map, list_elem_of_In, Hv.
Qed.

Lemma literal_in_enumMember (v : string) : occurs_in (literal v) (enumMember v).
Proof.
  exists ("  " +:+ safeEnumKey v +:+ " = "), ",".
  unfold enumMember, literal. now rewrite !str_app_assoc.
Qed.

(** C10. Enum values reach the output verbatim between two double-quote
    characters, whatever characters they contain (a double quote
    included): each value [v] of the enum occurs as [dquote v dquote] in
    the enum declaration that [generateType] emits and, for a schema of
    type [string], in the literal union that [mapType] returns. *)
Theorem enum_values_verbatim (fuel : nat) (name : string) (s : Schema)
    (m : gmap string Schema) (o : GeneratorOptions)
    (e : list string) (v : string)
    (He : enum s = Some e) (Hv : v ∈ e) :
  (exists out,
      generateType fuel name s m o = Ok out /\
      out = "export enum " +:+ prefixOf o +:+ name +:+ " {" +:+ nl
              +:+ join nl (map enumMember e) +:+ nl +:+ "}" /\
      enumMember v = "  " +:+ safeEnumKey v +:+ " = " +:+ dquote +:+ v +:+ dquote +:+ "," /\
      occurs_in (enumMember v) out /\
      occurs_in (dquote +:+ v +:+ dquote) out) /\
  (truthy_string (ref s) = None ->
   oneOf s = None -> anyOf s = None -> allOf s = None ->
   type s = Some "string" ->
   exists out,
      mapType (S fuel) (Some s) m o = Ok out /\
      out = join " | " (map (fun v => dquote +:+ v +:+ dquote) e) /\
      occurs_in (dquote +:+ v +:+ dquote) out).
Proof.
  split.
  - eexists. split; [| split; [reflexivity | split; [reflexivity |]]].
    + unfold generateType. rewrite He. reflexivity.
    + assert (H : occurs_in (enumMember v)
                    ("export enum " +:+ prefixOf o +:+ name +:+ " {" +:+ nl
                       +:+ join nl (map enumMember e) +:+ nl +:+ "}")).
      { do 5 apply occurs_in_append_r. apply occurs_in_append_l.
        now apply occurs_in_join_map. }
      split; [exact H |].
      eapply occurs_in_trans; [apply literal_in_enumMember | exact H].
  - intros Hr H1 H2 H3 Ht. eexists. split; [| split; [reflexivity |]].
    + cbn [mapType]. rewrite Hr, H1, H2, H3, Ht, He.
      destruct e as [|x e]; [inversion Hv | reflexivity].
    + now apply (occurs_in_join_map (fun v => dquote +:+ v +:+ dquote)).
Qed.

Lemma enum_values_verbatim_witness :
  generateType 0 "Greeting" greeting ∅ defaultOptions
    = Ok ("export enum IGreeting {" +:+ nl
            +:+ "  PLAIN = " +:+ dquote +:+ "plain" +:+ dquote +:+ "," +:+ nl
            +:+ "  SAY_" +:+ dquote +:+ "HI" +:+ dquote +:+ " = "
            +:+ dquote +:+ "say " +:+ dquote +:+ "hi" +:+ dquote +:+ dquote +:+ "," +:+ nl
            +:+ "}") /\
  mapType 1 (Some greeting) ∅ defaultOptions
    = Ok (dquote +:+ "plain" +:+ dquote +:+ " | "
            +:+ dquote +:+ "say " +:+ dquote +:+ "hi" +:+ dquote +:+ dquote).
Proof.
  assert (Hv : quoted ∈ ["plain"; quoted])
    by (apply list_elem_of_further, list_elem_of_here).
  destruct (enum_values_verbatim 0 "Greeting" greeting ∅ defaultOptions
              ["plain"; quoted] quoted eq_refl Hv) as [(out & Hg & -> & _) Hm].
  destruct (Hm eq_refl eq_refl eq_refl eq_refl eq_refl) as (out' & Hm' & -> & _).
  split; [exact Hg | exact Hm'].
Defined.

(** ** Enums inside type expressions *)

(** [inlineObject] reads [properties] and [required] only. *)
Lemma inlineObject_reads fuel s s' m w w' o :
  properties s = properties s' -> required s = required s' ->
  inlineObject fuel (Some s) m w o = inlineObject fuel (Some s') m w' o.
Proof.
  intros Hp Hr. destruct fuel as [|fuel]; [reflexivity |].
  cbn [inlineObject]. now rewrite Hp, Hr.
Qed.

(** C8, as the code has it.  For a schema with an [enum], no [$ref] and no
    combinator, whose [type] is not [string], [mapType] does not look at
    the enum: it answers as for the schema without it, which is [any] when
    [type] is absent or is none of integer, number, string, boolean, array
    and object; [generateType] emits an enum declaration for the same
    schema. *)
Theorem mapType_ignores_enum (fuel : nat) (name : string) (s : Schema)
    (m : gmap string Schema) (o : GeneratorOptions) (e : list string)
    (He : enum s = Some e)
    (Hr : truthy_string (ref s) = None)
    (H1 : oneOf s = None) (H2 : anyOf s = None) (H3 : allOf s = None)
    (Ht : type s <> Some "string") :
  mapType fuel (Some s) m o = mapType fuel (Some (withoutEnum s)) m o /\
  (recognizedType (type s) = false -> mapType (S fuel) (Some s) m o = Ok "any") /\
  generateType fuel name s m o =
    Ok ("export enum " +:+ prefixOf o +:+ name +:+ " {" +:+ nl
          +:+ join nl (map enumMember e) +:+ nl +:+ "}").
Proof.
  split; [| split].
  - destruct fuel as [|fuel]; [reflexivity |].
    cbn [mapType withoutEnum ref oneOf anyOf allOf type items properties enum].
    rewrite Hr, H1, H2, H3.
    destruct (type s) as [t|]; [| reflexivity].
    destruct (String.eqb_spec t "string") as [-> | _]; [congruence |].
    rewrite (inlineObject_reads fuel s (withoutEnum s) m true true o eq_refl eq_refl).
    reflexivity.
  - intros Hn. cbn [mapType]. rewrite Hr, H1, H2, H3.
    destruct (type s) as [t|]; [| reflexivity].
    cbn [recognizedType] in Hn.
    repeat (apply orb_false_elim in Hn as [Hn ?]).
    repeat match goal with H : String.eqb _ _ = false |- _ => rewrite H; clear H end.
    reflexivity.
  - unfold generateType. now rewrite He.
Qed.

Lemma mapType_ignores_enum_witness :
  mapType 1 (Some letters) ∅ defaultOptions = Ok "any" /\
  generateType 1 "Letter" letters ∅ defaultOptions
  = Ok ("export enum ILetter {" +:+ nl
          +:+ "  A = " +:+ dquote +:+ "a" +:+ dquote +:+ "," +:+ nl
          +:+ "  B = " +:+ dquote +:+ "b" +:+ dquote +:+ "," +:+ nl +:+ "}").
Proof.
  pose proof (mapType_ignores_enum 0 "Letter" letters
    ∅ defaultOptions ["a"; "b"] eq_refl eq_refl eq_refl eq_refl eq_refl
    ltac:(discriminate)) as (_ & Hany & _).
  pose proof (mapType_ignores_enum 1 "Letter" letters
    ∅ defaultOptions ["a"; "b"] eq_refl eq_refl eq_refl eq_refl eq_refl
    ltac:(discriminate)) as (_ & _ & Hgen).
  split; [exact (Hany eq_refl) | exact Hgen].
Defined.

(** C8 as stated fails: a schema of type [integer] with an enum is mapped
    to [number], never to [any]. *)
Lemma integer_enum_is_number :
  mapType 1 (Some digits) ∅ defaultOptions = Ok "number" /\
  ~ exists fuel : nat, mapType fuel (Some digits) ∅ defaultOptions = Ok "any".
Proof.
  split; [reflexivity |].
  intros [[|fuel] H]; discriminate H.
Qed.

(** ** Variants of a top-level combinator *)

Lemma variantType_plain fuel m o v :
  truthy_string (ref v) = None -> properties v = None ->
  variantType (S fuel) m o v = Ok "{}".
Proof.
  intros Hr Hp. unfold variantType. rewrite Hr. cbn [inlineObject]. now rewrite Hp.
Qed.

Lemma variantType_ref fuel m o v r :
  truthy_string (ref v) = Some r -> variantType fuel m o v = Ok (refName r o).
Proof. intros Hr. unfold variantType. now rewrite Hr. Qed.

(** The declaration emitted for a union or an intersection, in terms of
    the rendered variants. *)
Lemma generateType_combinator fuel name s m o vs sep :
  enum s = None ->
  (js_or (oneOf s) (anyOf s) = Some vs /\ sep = " | ") \/
  (js_or (oneOf s) (anyOf s) = None /\ allOf s = Some vs /\ sep = " & ") ->
  generateType fuel name s m o =
  (rs <- array_map (variantType fuel m o) vs ;;
   Ok ("export type " +:+ prefixOf o +:+ name +:+ " = " +:+ join sep rs +:+ ";")).
Proof.
  intros He [[Hu ->] | (Hu & Ha & ->)]; unfold generateType; rewrite He, Hu.
  - reflexivity.
  - now rewrite Ha.
Qed.

(** C9. In a top-level [oneOf]/[anyOf]/[allOf] declaration the variants
    are rendered one by one, in order; a variant that is not a [$ref] and
    has no [properties] is rendered as the empty-object literal [{}], also
    when [mapType] would map it to a primitive type ([{type: "string"}] is
    mapped to [string]); and when every variant is of that kind or a
    [$ref], the declaration is emitted. *)
Theorem primitive_variant_is_empty_object (fuel : nat) (name : string)
    (s : Schema) (m : gmap string Schema) (o : GeneratorOptions)
    (vs : list Schema) (sep : string)
    (He : enum s = None)
    (Hc : (js_or (oneOf s) (anyOf s) = Some vs /\ sep = " | ") \/
          (js_or (oneOf s) (anyOf s) = None /\ allOf s = Some vs /\ sep = " & ")) :
  (forall out, generateType (S fuel) name s m o = Ok out ->
     exists rs,
       out = "export type " +:+ prefixOf o +:+ name +:+ " = " +:+ join sep rs +:+ ";" /\
       length rs = length vs /\
       forall i v, vs !! i = Some v ->
         truthy_string (ref v) = None -> properties v = None ->
         rs !! i = Some "{}") /\
  ((forall v, v ∈ vs -> truthy_string (ref v) = None -> properties v = None) ->
   exists out, generateType (S fuel) name s m o = Ok out) /\
  variantType (S fuel) m o (ofType "string") = Ok "{}" /\
  mapType (S fuel) (Some (ofType "string")) m o = Ok "string".
Proof.
  rewrite (generateType_combinator _ _ _ _ _ vs sep He Hc).
  split; [| split; [| split; reflexivity]].
  - intros out H.
    destruct (array_map (variantType (S fuel) m o) vs) as [rs| |] eqn:Hrs;
      try discriminate H.
    injection H as <-. exists rs. split; [reflexivity |].
    apply array_map_Ok in Hrs. split.
    + symmetry. eapply Forall2_length, Hrs.
    + intros i v Hi Hr Hp.
      destruct (Forall2_lookup_l _ _ _ _ _ Hrs Hi) as (r & Hri & Hv).
      rewrite variantType_plain in Hv by assumption. congruence.
  - intros Hall.
    assert (Hrs : exists rs, array_map (variantType (S fuel) m o) vs = Ok rs).
    { clear Hc. induction vs as [|v vs IH].
      - now exists [].
      - destruct IH as [rs Hrs].
        { intros v' Hv'. apply Hall. now apply list_elem_of_further. }
        destruct (truthy_string (ref v)) as [r|] eqn:Hr.
        + exists (refName r o :: rs). cbn [array_map].
          rewrite (variantType_ref _ _ _ _ r Hr), Hrs. reflexivity.
        + exists ("{}" :: rs). cbn [array_map].
          rewrite variantType_plain, Hrs; [reflexivity | assumption |].
          apply Hall; [apply list_elem_of_here | assumption]. }
    destruct Hrs as [rs ->]. eexists. reflexivity.
Qed.

Lemma primitive_variant_is_empty_object_witness :
  generateType 1 "Id" identifier ∅ defaultOptions
    = Ok "export type IId = {} | {} | IUuid;" /\
  exists rs : list string,
    "export type IId = {} | {} | IUuid;"
      = "export type " +:+ prefixOf defaultOptions +:+ "Id" +:+ " = "
          +:+ join " | " rs +:+ ";" /\
    rs !! 0 = Some "{}" /\ rs !! 1 = Some "{}".
Proof.
  split; [reflexivity |].
  destruct (primitive_variant_is_empty_object 0 "Id" identifier ∅ defaultOptions
    [ofType "string"; ofType "integer"; refTo "#/components/schemas/Uuid"] " | "
    eq_refl (or_introl (conj eq_refl eq_refl))) as (H & _).
  destruct (H "export type IId = {} | {} | IUuid;" eq_refl) as (rs & Hout & _ & Hi).
  exists rs. split; [exact Hout |]. split.
  - apply (Hi 0 (ofType "string")); reflexivity.
  - apply (Hi 1 (ofType "integer")); reflexivity.
Defined.

(** ** Order of fields and variants *)

Lemma bind_Ok {A B : Type} (r : result A) (k : A -> result B) (b : B) :
  bind r k = Ok b <-> exists a, r = Ok a /\ k a = Ok b.
Proof.
  destruct r as [a| |]; simpl; split; try discriminate.
  - intros H. now exists a.
  - now intros (a' & [= <-] & H).
  - now intros (? & ? & _).
  - now intros (? & ? & _).
Qed.

(** A callback that computes one intermediate result per element and
    formats it: the formatted array pairs the i-th element with its own
    intermediate result. *)
Lemma array_map_format {A B C : Type} (g : A -> result B) (h : A -> B -> C)
    (l : list A) (zs : list C) :
  array_map (fun x => y <- g x ;; Ok (h x y)) l = Ok zs <->
  exists ys, Forall2 (fun x y => g x = Ok y) l ys /\ zs = zip_with h l ys.
Proof.
  rewrite array_map_Ok. revert zs.
  induction l as [|x l IH]; intros zs; split.
  - intros H. inversion H. exists []. split; [constructor | reflexivity].
  - intros (ys & H & ->). inversion H. constructor.
  - intros H. inversion H as [|? z ? zs' Hx Hl]; subst.
    apply bind_Ok in Hx as (y & Hy & [= <-]).
    apply IH in Hl as (ys & Hys & ->).
    exists (y :: ys). split; [now constructor | reflexivity].
  - intros (ys & H & ->). inversion H as [|? y ? ys' Hx Hl]; subst.
    cbn [zip_with]. constructor.
    + now rewrite Hx.
    + apply IH. now exists ys'.
Qed.

(** C6. The field lines of a rendered object are the lines of its
    properties in the order of the [properties] mapping, one line per
    property, and the variants of [oneOf], [anyOf] or [allOf] are joined
    in the order of the input sequence, one text per variant: nothing is
    dropped, merged or moved.  ([ts] holds the type expression of the i-th
    property, or variant, at position i.) *)
Theorem order_preserved (fuel : nat) (m : gmap string Schema)
    (o : GeneratorOptions) (s : Schema) :
  (forall ps w out, properties s = Some ps ->
     (inlineObject (S fuel) (Some s) m w o = Ok out <->
      exists ts,
        Forall2 (fun p t => mapType fuel (Some p.2) m o = Ok t) ps ts /\
        out = "{" +:+ nl
                +:+ join nl (zip_with (fun p t => fieldLine s p.1 t) ps ts)
                +:+ nl +:+ "}")) /\
  (forall l sep out,
     truthy_string (ref s) = None ->
     (oneOf s = Some l /\ sep = " | ") \/
     (oneOf s = None /\ anyOf s = Some l /\ sep = " | ") \/
     (oneOf s = None /\ anyOf s = None /\ allOf s = Some l /\ sep = " & ") ->
     (mapType (S fuel) (Some s) m o = Ok out <->
      exists ts,
        Forall2 (fun v t => mapType fuel (Some v) m o = Ok t) l ts /\
        out = join sep ts)).
Proof.
  split.
  - intros ps w out Hp. cbn [inlineObject]. rewrite Hp.
    rewrite (array_map_ext _
      (fun p => t <- mapType fuel (Some p.2) m o ;; Ok (fieldLine s p.1 t)))
      by (intros [prop propSchema] _; reflexivity).
    rewrite bind_Ok. split.
    + intros (lines & Hl & [= <-]).
      apply array_map_format in Hl as (ts & Hts & ->). now exists ts.
    + intros (ts & Hts & ->). eexists. split; [| reflexivity].
      apply array_map_format. now exists ts.
  - intros l sep out Hr Hc. cbn [mapType]. rewrite Hr.
    assert (E : forall sep', sep' = sep ->
      (ts <- array_map (fun v => mapType fuel (Some v) m o) l ;; Ok (join sep' ts)) = Ok out
      <-> exists ts, Forall2 (fun v t => mapType fuel (Some v) m o = Ok t) l ts /\
                     out = join sep ts).
    { intros sep' ->. rewrite bind_Ok. split.
      - intros (ts & Hts & [= <-]). apply array_map_Ok in Hts. now exists ts.
      - intros (ts & Hts & ->). exists ts. split; [now apply array_map_Ok | reflexivity]. }
    destruct Hc as [[H1 ->] | [(H1 & H2 & ->) | (H1 & H2 & H3 & ->)]].
    + rewrite H1. now apply E.
    + rewrite H1, H2. now apply E.
    + rewrite H1, H2, H3. now apply E.
Qed.

Lemma order_preserved_witness :
  inlineObject 2 (Some record3) ∅ true defaultOptions
  = Ok ("{" +:+ nl +:+ "  b?: string;" +:+ nl +:+ "  a: number;" +:+ nl
          +:+ "  b2?: string;" +:+ nl +:+ "}") /\
  mapType 2 (Some all3) ∅ defaultOptions = Ok "string & number & string".
Proof.
  split.
  - apply (proj1 (order_preserved 1 ∅ defaultOptions record3)
             [("b", ofType "string"); ("a", ofType "integer"); ("b2", ofType "string")]
             true _ eq_refl).
    exists ["string"; "number"; "string"].
    split; [repeat constructor | reflexivity].
  - apply (proj2 (order_preserved 1 ∅ defaultOptions all3)
             [ofType "string"; ofType "integer"; ofType "string"] " & " _ eq_refl).
    + right. right. repeat split; reflexivity.
    + exists ["string"; "number"; "string"].
      split; [repeat constructor | reflexivity].
Defined.

(** ** Unresolvable references *)

(** C2, as the code has it.  Without inlining, a schema with a [$ref] is
    mapped to the declared-type name, the naming prefix followed by the
    bare name, and the call returns at once: the schema mapping is not
    consulted, so it makes no difference whether the name is one of its
    keys. *)
Theorem unresolved_ref_is_named (fuel : nat) (s : Schema) (r : string)
    (m : gmap string Schema) (o : GeneratorOptions)
    (Hr : truthy_string (ref s) = Some r)
    (Hmissing : m !! replace_first schemasPrefix EmptyString r = None)
    (Hi : truthy_bool (inlineRef o) = false) :
  mapType (S fuel) (Some s) m o
    = Ok (prefixOf o +:+ replace_first schemasPrefix EmptyString r) /\
  forall m' : gmap string Schema,
    mapType (S fuel) (Some s) m' o = mapType (S fuel) (Some s) m o.
Proof.
  split; [| intros m'];
    rewrite !(mapType_named_ref _ _ r) by assumption; reflexivity.
Qed.

Lemma unresolved_ref_is_named_witness :
  mapType 1 (Some (refTo "#/components/schemas/Missing")) roundTrip defaultOptions
  = Ok "IMissing".
Proof.
  exact (proj1 (unresolved_ref_is_named 0 (refTo "#/components/schemas/Missing")
                  "#/components/schemas/Missing" roundTrip defaultOptions
                  eq_refl eq_refl eq_refl)).
Defined.

(** C2 as stated fails.  For a [$ref] to a name that is not in the
    mapping, the answer without inlining is the dangling name, neither the
    fallback [any] nor the empty object [{}]; with [inlineRef] set the
    call throws [TypeError] ([inlineObject] reads [properties] of
    [undefined]) and no amount of fuel makes it return. *)
Lemma unresolved_ref_not_degraded :
  roundTrip !! "Missing" = None /\
  mapType 1 (Some (refTo "#/components/schemas/Missing")) roundTrip defaultOptions
    = Ok "IMissing" /\
  mapType 2 (Some (refTo "#/components/schemas/Missing")) roundTrip inlining
    = TypeError /\
  ~ exists (fuel : nat) (t : string),
      mapType fuel (Some (refTo "#/components/schemas/Missing")) roundTrip inlining
      = Ok t.
Proof.
  repeat split.
  intros (fuel & t & H).
  destruct fuel as [|[|fuel]]; discriminate H.
Qed.

(** ** Cyclic references under inlining *)

Lemma array_map_partial {A B : Type} (f : A -> result B) (l : list A) :
  (forall x, x ∈ l -> f x = OutOfFuel \/ exists y, f x = Ok y) ->
  array_map f l = OutOfFuel \/ exists ys, array_map f l = Ok ys.
Proof.
  induction l as [|x l IH]; intros H.
  - right. now exists [].
  - cbn [array_map].
    destruct (H x (list_elem_of_here _ _)) as [-> | [y ->]]; [now left |].
    destruct IH as [-> | [ys ->]].
    + intros x' Hx'. apply H. now apply list_elem_of_further.
    + now left.
    + right. now exists (y :: ys).
Qed.

(** A call that returns with some amount of fuel either returns or runs
    out of fuel with any other amount. *)
Lemma mapType_partial m o s n :
  (exists fuel t, mapType fuel s m o = Ok t) ->
  mapType n s m o = OutOfFuel \/ exists t, mapType n s m o = Ok t.
Proof.
  intros (fuel & t & H).
  destruct (Nat.le_ge_cases n fuel) as [Hle | Hle].
  - destruct (proj1 (fuel_mono m o _ _ Hle) s) as [E | E]; [now left |].
    right. exists t. congruence.
  - right. exists t. eapply mapType_more_fuel; eassumption.
Qed.

Section Cycle.

Variables (m : gmap string Schema) (o : GeneratorOptions).
Variables (a b : string) (sA sB : Schema).
Variables (beforeA afterA beforeB afterB : list (string * Schema)).
Variables (pa pb ra rb : string) (toA toB : Schema).

Hypothesis Hinline : truthy_bool (inlineRef o) = true.
Hypothesis HA : m !! a = Some sA.
Hypothesis HB : m !! b = Some sB.
Hypothesis HpropsA : properties sA = Some (beforeA ++ (pb, toB) :: afterA)%list.
Hypothesis HpropsB : properties sB = Some (beforeB ++ (pa, toA) :: afterB)%list.
Hypothesis HtoA : truthy_string (ref toA) = Some ra.
Hypothesis HtoB : truthy_string (ref toB) = Some rb.
Hypothesis Hra : replace_first schemasPrefix EmptyString ra = a.
Hypothesis Hrb : replace_first schemasPrefix EmptyString rb = b.

Lemma mapType_toA n : mapType (S n) (Some toA) m o = inlineObject n (Some sA) m true o.
Proof. rewrite (mapType_inline_ref _ _ ra) by assumption. now rewrite Hra, HA. Qed.

Lemma mapType_toB n : mapType (S n) (Some toB) m o = inlineObject n (Some sB) m true o.
Proof. rewrite (mapType_inline_ref _ _ rb) by assumption. now rewrite Hrb, HB. Qed.

(** An object is rendered only if each of its properties is mapped. *)
Lemma inlineObject_needs n s w before after p q t :
  properties s = Some (before ++ (p, q) :: after)%list ->
  inlineObject (S n) (Some s) m w o = Ok t ->
  exists tq, mapType n (Some q) m o = Ok tq.
Proof.
  intros Hp H. cbn [inlineObject] in H. rewrite Hp, array_map_app in H.
  apply bind_Ok in H as (lines & H & _).
  apply bind_Ok in H as (ys1 & _ & H).
  apply bind_Ok in H as (ys2 & H & _).
  cbn [array_map] in H.
  apply bind_Ok in H as (line & H & _).
  apply bind_Ok in H as (tq & H & _). now exists tq.
Qed.

(** Rendering an object whose properties reach, after properties that
    return, one that does not return. *)
Lemma inlineObject_stuck n s w before after p q :
  properties s = Some (before ++ (p, q) :: after)%list ->
  returning m o before ->
  mapType n (Some q) m o = OutOfFuel ->
  inlineObject (S n) (Some s) m w o = OutOfFuel.
Proof.
  intros Hp Hbefore Hq. cbn [inlineObject]. rewrite Hp, array_map_app.
  match goal with |- context [array_map ?f before] =>
    destruct (array_map_partial f before) as [-> | [ys ->]] end.
  - intros [x1 x2] Hx.
    destruct (mapType_partial m o (Some x2) n (Hbefore _ Hx)) as [-> | [t ->]];
      [now left | right; eexists; reflexivity].
  - reflexivity.
  - cbn [bind array_map]. rewrite Hq. reflexivity.
Qed.

Lemma cycle_never_returns (n : nat) :
  (forall w t, inlineObject n (Some sA) m w o <> Ok t) /\
  (forall w t, inlineObject n (Some sB) m w o <> Ok t).
Proof.
  induction n as [n IH] using lt_wf_ind.
  destruct n as [|[|n]]; [split; discriminate | |].
  - split; intros w t H;
      eapply inlineObject_needs in H as [tq Hq]; try eassumption; discriminate Hq.
  - destruct (IH n ltac:(lia)) as [IHA IHB].
    split; intros w t H;
      eapply inlineObject_needs in H as [tq Hq]; try eassumption.
    + rewrite mapType_toB in Hq. eapply IHB, Hq.
    + rewrite mapType_toA in Hq. eapply IHA, Hq.
Qed.

Lemma cycle_stuck (n : nat) :
  returning m o beforeA -> returning m o beforeB ->
  (forall w, inlineObject n (Some sA) m w o = OutOfFuel) /\
  (forall w, inlineObject n (Some sB) m w o = OutOfFuel).
Proof.
  intros HbA HbB. induction n as [n IH] using lt_wf_ind.
  destruct n as [|n]; [split; reflexivity |].
  assert (Hto : mapType n (Some toA) m o = OutOfFuel /\
                mapType n (Some toB) m o = OutOfFuel).
  { destruct n as [|n]; [split; reflexivity |].
    rewrite mapType_toA, mapType_toB.
    destruct (IH n ltac:(lia)) as [IHA IHB]. split; [apply IHA | apply IHB]. }
  destruct Hto as [HtA HtB].
  split; intros w; eapply inlineObject_stuck; eassumption.
Qed.

(** C5. With [inlineRef] set, when a property of schema [A] refers to [B]
    and a property of schema [B] refers back to [A], the calls of
    [mapType] and [inlineObject] that expand [A] or [B] never return a
    type expression; and when the properties listed before those two are
    ones whose mapping returns, the expansion does not end at all:
    whatever the bound on nested calls, it is exceeded. *)
Theorem inline_cycle_diverges :
  (forall fuel w t,
     inlineObject fuel (Some sA) m w o <> Ok t /\
     inlineObject fuel (Some sB) m w o <> Ok t /\
     mapType fuel (Some toA) m o <> Ok t /\
     mapType fuel (Some toB) m o <> Ok t) /\
  (returning m o beforeA -> returning m o beforeB ->
   forall fuel w,
     inlineObject fuel (Some sA) m w o = OutOfFuel /\
     inlineObject fuel (Some sB) m w o = OutOfFuel /\
     mapType fuel (Some toA) m o = OutOfFuel /\
     mapType fuel (Some toB) m o = OutOfFuel).
Proof.
  split.
  - intros fuel w t.
    destruct (cycle_never_returns fuel) as [HsA HsB].
    split; [apply HsA | split; [apply HsB |]].
    destruct fuel as [|fuel]; [split; discriminate |].
    rewrite mapType_toA, mapType_toB.
    destruct (cycle_never_returns fuel) as [HA' HB']. split; [apply HA' | apply HB'].
  - intros HbA HbB fuel w.
    destruct (cycle_stuck fuel HbA HbB) as [HsA HsB].
    split; [apply HsA | split; [apply HsB |]].
    destruct fuel as [|fuel]; [split; reflexivity |].
    rewrite mapType_toA, mapType_toB.
    destruct (cycle_stuck fuel HbA HbB) as [HA' HB']. split; [apply HA' | apply HB'].
Qed.

End Cycle.

Lemma inline_cycle_diverges_witness :
  inlineObject 9 (Some cyclicA) cyclic true inlining = OutOfFuel /\
  inlineObject 9 (Some cyclicB) cyclic true inlining = OutOfFuel /\
  mapType 9 (Some (refTo "#/components/schemas/A")) cyclic inlining = OutOfFuel /\
  mapType 9 (Some (refTo "#/components/schemas/B")) cyclic inlining = OutOfFuel.
Proof.
  refine (proj2 (inline_cycle_diverges cyclic inlining "A" "B" cyclicA cyclicB
           [("id", ofType "integer")] [] [] []
           "a" "b" "#/components/schemas/A" "#/components/schemas/B"
           (refTo "#/components/schemas/A") (refTo "#/components/schemas/B")
           eq_refl eq_refl eq_refl eq_refl eq_refl eq_refl eq_refl eq_refl eq_refl)
           _ _ 9 true).
  - intros p Hp. apply list_elem_of_singleton in Hp as ->.
    exists 1, "number". reflexivity.
  - intros p Hp. inversion Hp.
Defined.

(** ** Totality without inlining *)

Lemma is_empty_true (t : string) : is_empty t = true <-> t = EmptyString.
Proof. destruct t; simpl; split; congruence. Qed.

Lemma max_list_with_le {A : Type} (f : A -> nat) (l : list A) (x : A) :
  x ∈ l -> f x <= max_list_with f l.
Proof.
  induction 1 as [x l | x y l _ IH]; cbn [max_list_with]; lia.
Qed.

Lemma array_map_total {A B : Type} (f : A -> result B) (P : A -> B -> Prop)
    (l : list A) :
  (forall x, x ∈ l -> exists y, f x = Ok y /\ P x y) ->
  exists ys, array_map f l = Ok ys /\ Forall2 P l ys.
Proof.
  induction l as [|x l IH]; intros H.
  - exists []. split; [reflexivity | constructor].
  - destruct (H x (list_elem_of_here _ _)) as (y & Hy & Py).
    destruct IH as (ys & Hys & Pys).
    { intros x' Hx'. apply H. now apply list_elem_of_further. }
    exists (y :: ys). cbn [array_map]. rewrite Hy, Hys.
    split; [reflexivity | now constructor].
Qed.

Lemma join_empty_iff (f : Schema -> bool) (sep : string)
    (l : list Schema) (ts : list string) :
  sep <> EmptyString ->
  Forall2 (fun x t => t = EmptyString <-> f x = true) l ts ->
  join sep ts = EmptyString <-> onlyEmpty f l = true.
Proof.
  intros Hsep H. rewrite (join_eq_empty sep ts Hsep).
  destruct H as [|x t l0 ts0 Hx [|x' t' l1 ts1 Hx' H]]; cbn [onlyEmpty].
  - split; [reflexivity | now left].
  - rewrite <- Hx. split.
    + intros [? | [= ->]]; [discriminate | reflexivity].
    + intros ->. now right.
  - split; [intros [? | ?]; discriminate | discriminate].
Qed.

(** *** What is returned is not empty *)

Section NonEmpty.

Variables (m : gmap string Schema) (o : GeneratorOptions).

Lemma inlineObject_nonempty n s w t :
  inlineObject n s m w o = Ok t -> t <> EmptyString.
Proof.
  destruct n as [|n]; [discriminate |].
  destruct s as [s|]; [| discriminate].
  cbn [inlineObject]. destruct (properties s) as [ps|].
  - intros H. apply bind_Ok in H as (lines & _ & [= <-]). discriminate.
  - intros [= <-]. discriminate.
Qed.

Lemma combinator_nonempty n sep l t :
  sep <> EmptyString ->
  (forall s t, mapType n (Some s) m o = Ok t ->
     (t = EmptyString <-> emptyType o s = true)) ->
  (ts <- array_map (fun s => mapType n (Some s) m o) l ;; Ok (join sep ts)) = Ok t ->
  t = EmptyString <-> onlyEmpty (emptyType o) l = true.
Proof.
  intros Hsep IH H. apply bind_Ok in H as (ts & Hts & [= <-]).
  apply array_map_Ok in Hts. apply join_empty_iff; [exact Hsep |].
  eapply Forall2_impl; [exact Hts |]. intros x t. apply IH.
Qed.

Lemma mapType_empty_iff n s t :
  mapType n (Some s) m o = Ok t ->
  (t = EmptyString <-> emptyType o s = true).
Proof.
  revert s t. induction n as [|n IH]; [discriminate |].
  intros [ty e ps rq l1 l2 l3 rf it] t.
  cbn [mapType emptyType ref oneOf anyOf allOf type enum items properties].
  assert (Hne : forall t' : string, t' <> EmptyString ->
            (t' = EmptyString <-> false = true))
    by (intros t' Ht'; split; [contradiction | discriminate]).
  destruct (truthy_string rf) as [r|].
  { destruct (truthy_bool (inlineRef o)); cbn [negb andb].
    - intros H. apply Hne. eapply inlineObject_nonempty, H.
    - intros [= <-]. symmetry. apply is_empty_true. }
  destruct l1 as [l1|]; [now apply combinator_nonempty |].
  destruct l2 as [l2|]; [now apply combinator_nonempty |].
  destruct l3 as [l3|]; [now apply combinator_nonempty |].
  destruct ty as [ty|]; [| intros [= <-]; now apply Hne].
  destruct (String.eqb ty "integer" || String.eqb ty "number");
    [intros [= <-]; now apply Hne |].
  destruct (String.eqb ty "string").
  { destruct e as [[|x e]|]; intros [= <-]; apply Hne; try discriminate.
    change (join " | " (map literal (x :: e)) <> EmptyString).
    rewrite (join_eq_empty " | ") by discriminate.
    intros [? | ?]; discriminate. }
  destruct (String.eqb ty "boolean"); [intros [= <-]; now apply Hne |].
  destruct (String.eqb ty "array").
  { destruct it as [i|]; [| intros [= <-]; now apply Hne].
    intros H. apply bind_Ok in H as (ti & _ & [= <-]). apply Hne.
    rewrite str_app_eq_empty. now intros [_ ?]. }
  destruct (String.eqb ty "object"); [| intros [= <-]; now apply Hne].
  destruct ps as [ps|]; [| intros [= <-]; now apply Hne].
  intros H. apply Hne. eapply inlineObject_nonempty, H.
Qed.

Lemma generateType_nonempty fuel name s t :
  generateType fuel name s m o = Ok t -> t <> EmptyString.
Proof.
  unfold generateType.
  destruct (enum s); [intros [= <-]; discriminate |].
  destruct (js_or (oneOf s) (anyOf s)).
  { intros H. apply bind_Ok in H as (? & _ & [= <-]). discriminate. }
  destruct (allOf s).
  { intros H. apply bind_Ok in H as (? & _ & [= <-]). discriminate. }
  match goal with |- context [if ?c then _ else _] => destruct c end.
  - intros H. apply bind_Ok in H as (? & _ & [= <-]). discriminate.
  - intros [= <-]. discriminate.
Qed.

End NonEmpty.

(** *** Without inlining every call returns *)

Lemma objectCalls_lt_calls (s : Schema) : objectCalls s < calls s.
Proof. destruct s. unfold objectCalls. cbn. lia. Qed.

Lemma variantType_below m o n k v :
  n <= k -> below (variantType n m o v) (variantType k m o v).
Proof.
  intros Hle. unfold variantType.
  destruct (truthy_string (ref v)); [apply below_refl |].
  now apply fuel_mono.
Qed.

Lemma generateType_below m o n k name s :
  n <= k -> below (generateType n name s m o) (generateType k name s m o).
Proof.
  intros Hle. unfold generateType.
  pose proof (variantType_below m o n k) as Hv.
  pose proof (proj2 (fuel_mono m o n k Hle)) as Hobj.
  destruct (enum s); [apply below_refl |].
  destruct (js_or (oneOf s) (anyOf s)).
  { apply below_bind; [apply below_array_map; auto | intros; apply below_refl]. }
  destruct (allOf s).
  { apply below_bind; [apply below_array_map; auto | intros; apply below_refl]. }
  match goal with |- context [if ?c then _ else _] => destruct c end.
  - apply below_bind; [apply Hobj | intros; apply below_refl].
  - apply below_refl.
Qed.

Section NoInlining.

Variables (m : gmap string Schema) (o : GeneratorOptions).
Hypothesis Hi : truthy_bool (inlineRef o) = false.

Lemma combinator_total n sep l :
  (forall s, calls s <= n -> exists t, mapType n (Some s) m o = Ok t) ->
  max_list_with calls l <= n ->
  exists t,
    (ts <- array_map (fun s => mapType n (Some s) m o) l ;; Ok (join sep ts)) = Ok t.
Proof.
  intros IH Hl.
  destruct (array_map_total (fun s => mapType n (Some s) m o) (fun _ _ => True) l)
    as (ts & -> & _).
  { intros x Hx. destruct (IH x) as [t Ht]; [| now exists t].
    pose proof (max_list_with_le calls l x Hx). lia. }
  eexists. reflexivity.
Qed.

Lemma total_step (n : nat) :
  (forall s, calls s <= n -> exists t, mapType n (Some s) m o = Ok t) /\
  (forall s w, objectCalls s <= n -> exists t, inlineObject n (Some s) m w o = Ok t).
Proof.
  induction n as [|n [IHm IHi]].
  - split; [intros [] H | intros [] w H]; inversion H.
  - split.
    + intros [t e ps rq l1 l2 l3 rf it] Hc.
      cbn [calls properties oneOf anyOf allOf items max_list_with id] in Hc.
      cbn [mapType ref oneOf anyOf allOf type enum items properties].
      destruct (truthy_string rf) as [r|]; [rewrite Hi; now eexists |].
      destruct l1 as [l1|];
        [apply combinator_total; [exact IHm | cbn [maxOpt] in Hc; lia] |].
      destruct l2 as [l2|];
        [apply combinator_total; [exact IHm | cbn [maxOpt] in Hc; lia] |].
      destruct l3 as [l3|];
        [apply combinator_total; [exact IHm | cbn [maxOpt] in Hc; lia] |].
      destruct t as [t|]; [| now eexists].
      destruct (String.eqb t "integer" || String.eqb t "number"); [now eexists |].
      destruct (String.eqb t "string");
        [destruct e as [[|x e]|]; now eexists |].
      destruct (String.eqb t "boolean"); [now eexists |].
      destruct (String.eqb t "array").
      { destruct it as [i|]; [| now eexists].
        destruct (IHm i) as (ti & ->); [cbn [maxOpt] in Hc; lia |].
        now eexists. }
      destruct (String.eqb t "object"); [| now eexists].
      destruct ps as [ps|]; [| now eexists].
      apply IHi. unfold objectCalls. cbn [properties maxOpt] in *. lia.
    + intros s w Hc. unfold objectCalls in Hc. cbn [inlineObject].
      destruct (properties s) as [ps|]; [| now eexists].
      cbn [maxOpt] in Hc.
      match goal with |- context [array_map ?f ps] =>
        destruct (array_map_total f (fun _ _ => True) ps) as (lines & -> & _) end.
      { intros [prop propSchema] Hp.
        destruct (IHm propSchema) as (t & ->).
        - pose proof (max_list_with_le (fun p => calls p.2) ps _ Hp) as Hle.
          cbn in Hle. lia.
        - eexists. split; [reflexivity | trivial]. }
      now eexists.
Qed.

Lemma variantType_total n v :
  calls v <= S n -> exists t, variantType n m o v = Ok t.
Proof.
  intros Hc. unfold variantType.
  destruct (truthy_string (ref v)); [now eexists |].
  apply total_step. pose proof (objectCalls_lt_calls v). lia.
Qed.

Lemma variants_total n sep (k : string -> string) l :
  max_list_with calls l <= S n ->
  exists t,
    (rs <- array_map (variantType n m o) l ;; Ok (k (join sep rs))) = Ok t.
Proof.
  intros Hl.
  destruct (array_map_total (variantType n m o) (fun _ _ => True) l)
    as (rs & -> & _).
  { intros x Hx. destruct (variantType_total n x) as [t Ht]; [| now exists t].
    pose proof (max_list_with_le calls l x Hx). lia. }
  eexists. reflexivity.
Qed.

Lemma generateType_total n name s :
  calls s <= S n -> exists t, generateType n name s m o = Ok t.
Proof.
  destruct s as [t e ps rq l1 l2 l3 rf it]. intros Hc.
  cbn [calls properties oneOf anyOf allOf items max_list_with id] in Hc.
  unfold generateType.
  cbn [ref oneOf anyOf allOf type enum items properties].
  destruct e as [e|]; [now eexists |].
  destruct l1 as [l1|]; cbn [js_or].
  { apply (variants_total n " | " (fun u => _ +:+ _ +:+ _ +:+ _ +:+ u +:+ _)).
    cbn [maxOpt] in Hc. lia. }
  destruct l2 as [l2|].
  { apply (variants_total n " | " (fun u => _ +:+ _ +:+ _ +:+ _ +:+ u +:+ _)).
    cbn [maxOpt] in Hc. lia. }
  destruct l3 as [l3|].
  { apply (variants_total n " & " (fun u => _ +:+ _ +:+ _ +:+ _ +:+ u +:+ _)).
    cbn [maxOpt] in Hc. lia. }
  match goal with |- context [if ?c then _ else _] => destruct c end;
    [| now eexists].
  destruct (proj2 (total_step n)
              (mkSchema t None ps rq None None None rf it) true) as (u & ->).
  { unfold objectCalls. cbn [properties]. lia. }
  now eexists.
Qed.

End NoInlining.

(** C3, as the code has it.  Whatever [generateType] returns is a
    non-empty string, and what [mapType] returns is one too, except for
    the degenerate schemas of [emptyType] (an empty combinator array, a
    reference whose declared-type name is empty).  When references are not
    inlined both functions return for every schema, [mapType] also for the
    absent one: they do not fail and they need no more nested calls than
    the schema is deep. *)
Theorem total_without_inlining (m : gmap string Schema) (o : GeneratorOptions) :
  (forall fuel schema t, mapType fuel schema m o = Ok t ->
     (t = EmptyString <-> exists s, schema = Some s /\ emptyType o s = true)) /\
  (forall fuel name s t, generateType fuel name s m o = Ok t -> t <> EmptyString) /\
  (truthy_bool (inlineRef o) = false ->
     (forall schema, exists t,
        forall fuel, callsOpt schema <= fuel -> mapType fuel schema m o = Ok t) /\
     (forall name s, exists t,
        forall fuel, calls s <= fuel -> generateType fuel name s m o = Ok t)).
Proof.
  split; [| split].
  - intros fuel [s|] t H.
    + rewrite (mapType_empty_iff m o fuel s t H). split.
      * intros He. now exists s.
      * now intros (s' & [= <-] & He).
    + destruct fuel as [|fuel]; [discriminate H |]. injection H as <-.
      split; [discriminate | now intros (s & ? & _)].
  - intros fuel name s t. apply generateType_nonempty.
  - intros Hi. split.
    + intros [s|].
      * destruct (proj1 (total_step m o Hi (calls s)) s (le_n _)) as [t Ht].
        exists t. intros fuel Hle. eapply mapType_more_fuel; eassumption.
      * exists "any". intros [|fuel] Hle; [inversion Hle | reflexivity].
    + intros name s.
      destruct (generateType_total m o Hi (calls s) name s) as [t Ht]; [lia |].
      exists t. intros fuel Hle.
      eapply below_Ok; [apply generateType_below, Hle | exact Ht].
Qed.

Lemma total_without_inlining_witness :
  (exists t, forall fuel, callsOpt None <= fuel ->
     mapType fuel None roundTrip defaultOptions = Ok t) /\
  (exists t, forall fuel, calls record3 <= fuel ->
     generateType fuel "Record" record3 roundTrip defaultOptions = Ok t).
Proof.
  destruct (proj2 (proj2 (total_without_inlining roundTrip defaultOptions)) eq_refl)
    as [Hm Hg].
  split; [apply (Hm None) | apply (Hg "Record" record3)].
Defined.

(** C3 as stated fails: [mapType] returns the empty string for a schema
    with an empty [oneOf], and with [inlineRef] set [generateType] throws
    on an object with a property that refers to a missing schema. *)
Lemma mapType_returns_empty_string :
  mapType 1 (Some emptyUnion) ∅ defaultOptions = Ok EmptyString /\
  generateType 3 "X" dangling ∅ inlining = TypeError /\
  ~ exists (fuel : nat) (t : string),
      generateType fuel "X" dangling ∅ inlining = Ok t.
Proof.
  split; [reflexivity | split; [reflexivity |]].
  intros (fuel & t & H).
  destruct (Nat.le_ge_cases 3 fuel) as [Hle | Hle].
  - destruct (generateType_below ∅ inlining 3 fuel "X" dangling Hle) as [E | E];
      [discriminate E | rewrite <- E in H; discriminate H].
  - destruct (generateType_below ∅ inlining fuel 3 "X" dangling Hle) as [E | E];
      rewrite E in H; discriminate H.
Qed.

(** * Further properties of the generator *)

(** ** Object keys *)

Lemma str_app_inv_tail (a b t : string) : a +:+ t = b +:+ t -> a = b.
Proof.
  intros H.
  assert (Hlen : forall x y : string,
            String.length (x +:+ y) = String.length x + String.length y).
  { intros x y. induction x as [|c x IH]; [reflexivity |].
    rewrite str_app_cons. cbn [String.length]. now rewrite IH. }
  revert b H. induction a as [|c a IH]; intros [|d b] H.
  - reflexivity.
  - apply (f_equal String.length) in H.
    rewrite str_app_nil, Hlen in H. cbn [String.length] in H. lia.
  - apply (f_equal String.length) in H.
    rewrite str_app_nil, Hlen in H. cbn [String.length] in H. lia.
  - rewrite !str_app_cons in H. injection H as -> H. f_equal. now apply IH.
Qed.

(** X1. Two different property names never get the same key: a name that
    is kept as it is starts with a letter or an underscore, a quoted one
    starts with the quote, and the quotes can be taken off again. *)
Theorem safeKey_injective (k1 k2 : string) :
  safeKey k1 = safeKey k2 -> k1 = k2.
Proof.
  unfold safeKey.
  destruct (is_identifier k1) eqn:H1, (is_identifier k2) eqn:H2; intros H.
  - exact H.
  - subst k1. discriminate H1.
  - subst k2. discriminate H2.
  - rewrite !str_app_cons, !str_app_nil in H. injection H as H.
    eapply str_app_inv_tail, H.
Qed.

Lemma safeKey_injective_witness :
  safeKey "a-b" = safeKey "a-b" /\ "a-b" = "a-b".
Proof.
  split; [reflexivity |]. apply safeKey_injective. reflexivity.
Defined.

(** ** Enum member names *)

Lemma upper_char_facts (c : ascii) :
  is_lower (upper_char c) = false /\
  is_sep (upper_char c) = is_sep c /\
  is_digit (upper_char c) = is_digit c /\
  is_word (upper_char c) = is_word c.
Proof.
  destruct c as [[] [] [] [] [] [] [] []]; vm_compute; repeat split.
Qed.

Lemma all_chars_impl (P Q : ascii -> bool) (s : string) :
  (forall c, P c = true -> Q c = true) ->
  all_chars P s = true -> all_chars Q s = true.
Proof.
  intros HPQ. induction s as [|c s IH]; [reflexivity |].
  cbn [all_chars]. rewrite !andb_true_iff. intros [Hc Hs]. auto.
Qed.

Lemma all_chars_toUpperCase (P : ascii -> bool) (s : string) :
  all_chars (fun c => P (upper_char c)) s = all_chars P (toUpperCase s).
Proof.
  induction s as [|c s IH]; [reflexivity |].
  cbn [all_chars toUpperCase]. now rewrite IH.
Qed.

Lemma replace_sep_runs_no_sep (b : bool) (s : string) :
  all_chars (fun c => negb (is_sep c)) (replace_sep_runs b s) = true.
Proof.
  revert b. induction s as [|c s IH]; intros b; [reflexivity |].
  cbn [replace_sep_runs]. destruct (is_sep c) eqn:Hc.
  - destruct b; [apply IH |]. cbn [all_chars]. now rewrite IH.
  - cbn [all_chars]. now rewrite Hc, IH.
Qed.

(** Inserting underscores keeps a property that the underscore has. *)
Lemma replace_camel_all (P : ascii -> bool) (s : string) :
  P "_"%char = true ->
  all_chars P s = true -> all_chars P (replace_camel s) = true.
Proof.
  intros HP.
  assert (H : forall n s, String.length s <= n ->
            all_chars P s = true -> all_chars P (replace_camel s) = true).
  { induction n as [|n IH]; intros [|c1 [|c2 r]] Hn; try reflexivity; trivial;
      cbn [String.length] in Hn; try lia.
    cbn [replace_camel all_chars]. rewrite !andb_true_iff. intros (H1 & H2 & Hr).
    destruct ((is_lower c1 || is_digit c1) && is_upper c2).
    - cbn [all_chars]. rewrite H1, HP, H2. cbn [andb].
      apply IH; [lia | exact Hr].
    - cbn [all_chars]. rewrite H1. cbn [andb].
      apply (IH (String c2 r)); [cbn [String.length]; lia |].
      cbn [all_chars]. now rewrite H2, Hr. }
  apply (H (String.length s)). lia.
Qed.

Lemma replace_camel_head (s : string) :
  starts_with_digit (replace_camel s) = starts_with_digit s.
Proof.
  destruct s as [|c1 [|c2 r]]; try reflexivity.
  cbn [replace_camel]. now destruct ((is_lower c1 || is_digit c1) && is_upper c2).
Qed.

Lemma toUpperCase_head (s : string) :
  starts_with_digit (toUpperCase s) = starts_with_digit s.
Proof.
  destruct s as [|c r]; [reflexivity |].
  cbn [toUpperCase starts_with_digit]. apply upper_char_facts.
Qed.

Lemma safeEnumKey_shape_head (key : string) :
  starts_with_digit (safeEnumKey key) = false.
Proof.
  unfold safeEnumKey. rewrite toUpperCase_head.
  destruct (starts_with_digit (replace_camel (replace_sep_runs false (trim key))))
    eqn:Hd; [reflexivity | exact Hd].
Qed.

(** X2. An enum member name holds no lower-case letter, no hyphen and no
    white space, and it does not begin with a digit, whatever the enum
    value was. *)
Theorem safeEnumKey_shape (key : string) :
  all_chars (fun c => negb (is_lower c) && negb (is_sep c)) (safeEnumKey key) = true /\
  starts_with_digit (safeEnumKey key) = false.
Proof.
  unfold safeEnumKey.
  set (k := replace_camel (replace_sep_runs false (trim key))).
  assert (Hk : all_chars (fun c => negb (is_sep c)) k = true).
  { apply replace_camel_all; [reflexivity | apply replace_sep_runs_no_sep]. }
  split.
  - rewrite <- all_chars_toUpperCase.
    assert (Hk' : all_chars (fun c => negb (is_sep c))
                    (if starts_with_digit k then "_" +:+ k else k) = true).
    { destruct (starts_with_digit k); [| exact Hk].
      rewrite str_app_cons, str_app_nil. cbn [all_chars]. now rewrite Hk. }
    revert Hk'. apply all_chars_impl. intros c Hc.
    destruct (upper_char_facts c) as (-> & -> & _). now rewrite Hc.
  - apply safeEnumKey_shape_head.
Qed.

Lemma all_word_all_chars (s : string) : all_word s = all_chars is_word s.
Proof. induction s as [|c s IH]; [reflexivity |]. cbn. now rewrite IH. Qed.

Lemma trimStart_all (P : ascii -> bool) (s : string) :
  all_chars P s = true -> all_chars P (trimStart s) = true.
Proof.
  induction s as [|c s IH]; [reflexivity |].
  cbn [trimStart]. destruct (is_space c); [| trivial].
  cbn [all_chars]. rewrite andb_true_iff. intros [_ Hs]. auto.
Qed.

Lemma trimEnd_all (P : ascii -> bool) (s : string) :
  all_chars P s = true -> all_chars P (trimEnd s) = true.
Proof.
  induction s as [|c s IH]; [reflexivity |].
  cbn [trimEnd all_chars]. rewrite andb_true_iff. intros [Hc Hs].
  destruct (is_space c && is_empty (trimEnd s)); [reflexivity |].
  cbn [all_chars]. now rewrite Hc, IH.
Qed.

Lemma replace_sep_runs_word (b : bool) (s : string) :
  all_chars (fun c => is_word c || is_sep c) s = true ->
  all_chars is_word (replace_sep_runs b s) = true.
Proof.
  revert b. induction s as [|c s IH]; intros b; [reflexivity |].
  cbn [all_chars replace_sep_runs]. rewrite andb_true_iff. intros [Hc Hs].
  destruct (is_sep c) eqn:Hsep.
  - destruct b; [now apply IH |]. cbn [all_chars]. now rewrite IH.
  - rewrite orb_false_r in Hc. cbn [all_chars]. now rewrite Hc, IH.
Qed.

Lemma replace_sep_runs_nonempty (s : string) :
  s <> EmptyString -> replace_sep_runs false s <> EmptyString.
Proof.
  destruct s as [|c s]; [congruence |]. intros _.
  cbn [replace_sep_runs]. destruct (is_sep c); discriminate.
Qed.

Lemma replace_camel_nonempty (s : string) :
  s <> EmptyString -> replace_camel s <> EmptyString.
Proof.
  destruct s as [|c1 [|c2 r]]; [congruence | discriminate |]. intros _.
  cbn [replace_camel]. destruct ((is_lower c1 || is_digit c1) && is_upper c2);
    discriminate.
Qed.

Lemma is_identifier_intro (s : string) :
  all_chars is_word s = true -> s <> EmptyString ->
  starts_with_digit s = false -> is_identifier s = true.
Proof.
  destruct s as [|c s]; [congruence |].
  cbn [all_chars starts_with_digit is_identifier]. rewrite andb_true_iff.
  intros [Hc Hs] _ Hd. rewrite all_word_all_chars, Hs, andb_true_r.
  unfold is_word in Hc. rewrite Hd in Hc.
  now destruct (is_lower c), (is_upper c), (code c =? 95)%N.
Qed.

(** X3. For an enum value made of letters, digits, underscores, hyphens
    and white space, with at least one character that is not white space,
    the member name is a valid identifier: it starts with a letter or an
    underscore and goes on with letters, digits and underscores. *)
Theorem safeEnumKey_identifier (key : string)
    (Hchars : all_chars (fun c => is_word c || is_sep c) key = true)
    (Hblank : trim key <> EmptyString) :
  is_identifier (safeEnumKey key) = true.
Proof.
  unfold safeEnumKey.
  set (k := replace_camel (replace_sep_runs false (trim key))).
  assert (Hw : all_chars is_word k = true).
  { apply replace_camel_all; [reflexivity |].
    apply replace_sep_runs_word, trimEnd_all, trimStart_all, Hchars. }
  assert (Hne : k <> EmptyString)
    by now apply replace_camel_nonempty, replace_sep_runs_nonempty.
  apply is_identifier_intro.
  - rewrite <- all_chars_toUpperCase.
    assert (Hw' : all_chars is_word (if starts_with_digit k then "_" +:+ k else k) = true).
    { destruct (starts_with_digit k); [| exact Hw].
      rewrite str_app_cons, str_app_nil. cbn [all_chars]. now rewrite Hw. }
    revert Hw'. apply all_chars_impl. intros c Hc.
    destruct (upper_char_facts c) as (_ & _ & _ & ->). exact Hc.
  - destruct (starts_with_digit k); [discriminate |].
    destruct k; [congruence | discriminate].
  - apply safeEnumKey_shape_head.
Qed.

Lemma safeEnumKey_identifier_witness :
  is_identifier (safeEnumKey "  2nd user-name ") = true.
Proof.
  apply safeEnumKey_identifier; [reflexivity | discriminate].
Defined.

(** ** Reference names *)

Lemma strip_prefix_app (p s : string) : strip_prefix p (p +:+ s) = Some s.
Proof.
  induction p as [|c p IH]; [reflexivity |].
  rewrite str_app_cons. cbn [strip_prefix]. now rewrite Ascii.eqb_refl.
Qed.

Lemma strip_prefix_Some (p s r : string) :
  strip_prefix p s = Some r -> s = p +:+ r.
Proof.
  revert s. induction p as [|c p IH]; intros s; cbn [strip_prefix].
  - now intros [= ->].
  - destruct s as [|d s]; [discriminate |].
    destruct (Ascii.eqb_spec c d) as [<- | _]; [| discriminate].
    intros H. rewrite str_app_cons. f_equal. now apply IH.
Qed.

Lemma replace_first_prefix (p rep s : string) :
  replace_first p rep (p +:+ s) = rep +:+ s.
Proof.
  destruct (p +:+ s) eqn:E; cbn [replace_first];
    rewrite <- E, strip_prefix_app; reflexivity.
Qed.

Lemma occursb_true (p s : string) : occurs_in p s -> occursb p s = true.
Proof.
  intros (pre & post & ->). induction pre as [|c pre IH].
  - rewrite str_app_nil.
    destruct (p +:+ post) eqn:E; cbn [occursb];
      rewrite <- E, strip_prefix_app; reflexivity.
  - rewrite str_app_cons. cbn [occursb].
    destruct (strip_prefix p (String c (pre +:+ p +:+ post))); [reflexivity | exact IH].
Qed.

Lemma replace_first_absent (p rep s : string) :
  ~ occurs_in p s -> replace_first p rep s = s.
Proof.
  induction s as [|c s IH]; intros Hno.
  - cbn [replace_first]. destruct (strip_prefix p EmptyString) as [r|] eqn:E;
      [| reflexivity].
    exfalso. apply Hno. exists EmptyString, r.
    now rewrite str_app_nil, <- (strip_prefix_Some _ _ _ E).
  - cbn [replace_first]. destruct (strip_prefix p (String c s)) as [r|] eqn:E.
    + exfalso. apply Hno. exists EmptyString, r.
      now rewrite str_app_nil, <- (strip_prefix_Some _ _ _ E).
    + f_equal. apply IH. intros (pre & post & ->). apply Hno.
      exists (String c pre), post. now rewrite str_app_cons.
Qed.




(** X5. A reference that does not contain [#/components/schemas/] is not
    resolved to a bare name: the whole token, slashes included, is put
    after the naming prefix. *)
Theorem refName_foreign_ref (r : string) (o : GeneratorOptions)
    (Hforeign : ~ occurs_in schemasPrefix r) :
  refName r o = prefixOf o +:+ r.
Proof. unfold refName. now rewrite replace_first_absent. Qed.

Lemma refName_foreign_ref_witness :
  refName "#/definitions/Pet" defaultOptions = "I#/definitions/Pet".
Proof.
  apply (refName_foreign_ref "#/definitions/Pet" defaultOptions).
  intros H. apply occursb_true in H. discriminate H.
Defined.

(** ** Type expressions *)

Section MappingUnused.

Variables (m m' : gmap string Schema) (o : GeneratorOptions).
Hypothesis Hi : truthy_bool (inlineRef o) = false.

Lemma mapping_unused (n : nat) :
  (forall s, mapType n s m o = mapType n s m' o) /\
  (forall s w, inlineObject n s m w o = inlineObject n s m' w o).
Proof.
  induction n as [|n [IHm IHi]]; [split; reflexivity |].
  split.
  - intros [s|]; [| reflexivity]. cbn [mapType]. rewrite Hi.
    repeat match goal with
    | |- context [match ?x with _ => _ end] => destruct x
    end;
    try reflexivity; try apply IHi.
    all: f_equal; first [apply IHm | apply array_map_ext; intros; apply IHm].
  - intros [s|] w; [| reflexivity]. cbn [inlineObject].
    destruct (properties s) as [ps|]; [| reflexivity].
    f_equal. apply array_map_ext. intros [prop propSchema] _. now rewrite IHm.
Qed.

End MappingUnused.

(** X6. When references are not inlined the schema mapping is never
    read: [mapType], [inlineObject] and [generateType] give the same
    answer for any two mappings, so a schema can be rendered without the
    schemas it refers to. *)
Theorem mapping_unused_without_inlining (m m' : gmap string Schema)
    (o : GeneratorOptions) (Hi : truthy_bool (inlineRef o) = false)
    (fuel : nat) :
  (forall s, mapType fuel s m o = mapType fuel s m' o) /\
  (forall s w, inlineObject fuel s m w o = inlineObject fuel s m' w o) /\
  (forall name s, generateType fuel name s m o = generateType fuel name s m' o).
Proof.
  destruct (mapping_unused m m' o Hi fuel) as [Hm Hobj].
  split; [exact Hm | split; [exact Hobj |]].
  intros name s. unfold generateType.
  assert (Hv : forall vs, array_map (variantType fuel m o) vs
                          = array_map (variantType fuel m' o) vs).
  { intros vs. apply array_map_ext. intros v _. unfold variantType.
    destruct (truthy_string (ref v)); [reflexivity | apply Hobj]. }
  destruct (enum s); [reflexivity |].
  destruct (js_or (oneOf s) (anyOf s)); [now rewrite Hv |].
  destruct (allOf s); [now rewrite Hv |].
  now rewrite Hobj.
Qed.

Lemma mapping_unused_without_inlining_witness :
  generateType 3 "A" cyclicA cyclic defaultOptions
  = generateType 3 "A" cyclicA ∅ defaultOptions.
Proof.
  apply (mapping_unused_without_inlining cyclic ∅ defaultOptions eq_refl 3).
Defined.

Lemma mapType_array n s i m o :
  truthy_string (ref s) = None ->
  oneOf s = None -> anyOf s = None -> allOf s = None ->
  type s = Some "array" -> items s = Some i ->
  mapType (S n) (Some s) m o
  = (itemType <- mapType n (Some i) m o ;; Ok (itemType +:+ "[]")).
Proof.
  intros Hr H1 H2 H3 Ht Hit. cbn [mapType]. now rewrite Hr, H1, H2, H3, Ht, Hit.
Qed.

Lemma mapType_oneOf n s l m o :
  truthy_string (ref s) = None -> oneOf s = Some l ->
  mapType (S n) (Some s) m o
  = (ts <- array_map (fun v => mapType n (Some v) m o) l ;; Ok (join " | " ts)).
Proof. intros Hr H1. cbn [mapType]. now rewrite Hr, H1. Qed.

Lemma join_snoc_append (sep x t : string) (ts : list string) :
  join sep (ts ++ [t])%list +:+ x = join sep (ts ++ [t +:+ x])%list.
Proof.
  induction ts as [|a ts IH]; [reflexivity |].
  change ((a :: ts) ++ [t])%list with (a :: (ts ++ [t]))%list.
  change ((a :: ts) ++ [t +:+ x])%list with (a :: (ts ++ [t +:+ x]))%list.
  rewrite !join_cons by (destruct ts; discriminate).
  now rewrite !str_app_assoc, IH.
Qed.

(** X7. An array whose items are a union is written without
    parentheses, the union's text followed by the array marker; the same
    text is what the union whose last variant alone is an array gives, so
    the two schemas cannot be told apart in the output. *)
Theorem array_of_union_unparenthesised (n : nat) (l : list Schema) (v : Schema)
    (m : gmap string Schema) (o : GeneratorOptions) (t : string)
    (Ht : mapType (S (S n)) (Some (arrayOf (unionOf (l ++ [v])%list))) m o = Ok t) :
  (exists ts tv,
     Forall2 (fun x tx => mapType n (Some x) m o = Ok tx) l ts /\
     mapType n (Some v) m o = Ok tv /\
     t = join " | " (ts ++ [tv])%list +:+ "[]") /\
  mapType (S (S n)) (Some (unionOf (l ++ [arrayOf v])%list)) m o = Ok t.
Proof.
  rewrite (mapType_array _ _ (unionOf (l ++ [v])%list)) in Ht by reflexivity.
  rewrite (mapType_oneOf _ _ (l ++ [v])%list) in Ht by reflexivity.
  apply bind_Ok in Ht as (u & Hu & [= <-]).
  apply bind_Ok in Hu as (us & Hus & [= <-]).
  rewrite array_map_app in Hus.
  apply bind_Ok in Hus as (ts & Hts & Hus).
  apply bind_Ok in Hus as (tvs & Hv & [= <-]).
  cbn [array_map] in Hv. apply bind_Ok in Hv as (tv & Hv & [= <-]).
  split.
  - exists ts, tv. split; [now apply array_map_Ok | split; [exact Hv | reflexivity]].
  - rewrite (mapType_oneOf _ _ (l ++ [arrayOf v])%list) by reflexivity.
    rewrite array_map_app.
    rewrite (array_map_ext _ (fun x => mapType n (Some x) m o) l).
    + rewrite Hts. cbn [bind array_map].
      rewrite (mapType_array _ _ v) by reflexivity. rewrite Hv. cbn [bind].
      now rewrite join_snoc_append.
    + intros x Hx. apply array_map_Ok in Hts.
      apply list_elem_of_lookup in Hx as [i Hi].
      destruct (Forall2_lookup_l _ _ _ _ _ Hts Hi) as (tx & _ & Hx).
      rewrite Hx. eapply mapType_more_fuel; [| exact Hx]. lia.
Qed.

Lemma array_of_union_unparenthesised_witness :
  mapType 3 (Some (arrayOf (unionOf [ofType "string"; ofType "integer"]))) ∅ defaultOptions
    = Ok "string | number[]" /\
  mapType 3 (Some (unionOf [ofType "string"; arrayOf (ofType "integer")])) ∅ defaultOptions
    = Ok "string | number[]".
Proof.
  split; [reflexivity |].
  exact (proj2 (array_of_union_unparenthesised 1 [ofType "string"] (ofType "integer")
                  ∅ defaultOptions "string | number[]" eq_refl)).
Defined.

Lemma truthy_string_idem (x : option string) (r : string) :
  truthy_string x = Some r -> truthy_string (Some r) = Some r.
Proof. destruct x as [[|c x]|]; try discriminate. now intros [= <-]. Qed.

Lemma truthy_standard_ref (name : string) :
  truthy_string (Some (schemasPrefix +:+ name)) = Some (schemasPrefix +:+ name).
Proof. reflexivity. Qed.

(** X8. With [inlineRef] set, a reference is replaced by the inline
    object rendering of the schema it names, which looks at [properties]
    and [required] only: a referenced schema without properties, be it a
    primitive, an enum, an array or a union, becomes [{}], and a
    referenced plain object becomes its own type expression. *)
Theorem inlined_ref_renders_properties (n : nat) (name : string) (s : Schema)
    (m : gmap string Schema) (o : GeneratorOptions)
    (Hi : truthy_bool (inlineRef o) = true)
    (Hm : m !! name = Some s) :
  mapType (S n) (Some (refTo (schemasPrefix +:+ name))) m o
    = inlineObject n (Some s) m true o /\
  (properties s = None ->
   mapType (S (S n)) (Some (refTo (schemasPrefix +:+ name))) m o = Ok "{}") /\
  (truthy_string (ref s) = None ->
   oneOf s = None -> anyOf s = None -> allOf s = None ->
   type s = Some "object" -> is_Some (properties s) ->
   mapType (S n) (Some (refTo (schemasPrefix +:+ name))) m o
     = mapType (S n) (Some s) m o).
Proof.
  assert (E : forall k, mapType (S k) (Some (refTo (schemasPrefix +:+ name))) m o
                        = inlineObject k (Some s) m true o).
  { intros k.
    rewrite (mapType_inline_ref _ _ (schemasPrefix +:+ name))
      by (assumption || apply truthy_standard_ref).
    now rewrite replace_first_prefix, str_app_nil, Hm. }
  split; [apply E | split].
  - intros Hp. rewrite E. cbn [inlineObject]. now rewrite Hp.
  - intros Hr H1 H2 H3 Ht [ps Hp]. rewrite E.
    cbn [mapType]. now rewrite Hr, H1, H2, H3, Ht, Hp.
Qed.

Lemma inlined_ref_renders_properties_witness :
  mapType 2 (Some (refTo (schemasPrefix +:+ "B"))) roundTrip inlining = Ok "{}" /\
  mapType 3 (Some (refTo (schemasPrefix +:+ "B"))) cyclic (mkOptions None (Some true))
    = mapType 3 (Some cyclicB) cyclic (mkOptions None (Some true)).
Proof.
  split.
  - apply (inlined_ref_renders_properties 0 "B" (ofType "string") roundTrip inlining
             eq_refl eq_refl); reflexivity.
  - apply (inlined_ref_renders_properties 2 "B" cyclicB cyclic
             (mkOptions None (Some true)) eq_refl eq_refl);
      first [reflexivity | now eexists].
Defined.



(** X10. [mapType] looks at the fields of a schema in a fixed order and
    at nothing after the first one present: a schema with a [$ref] is
    mapped as the bare reference; otherwise one with [oneOf] as the bare
    union of those variants; otherwise one with [anyOf] as that same
    union, exactly as if it were [oneOf]; otherwise one with [allOf] as
    the bare intersection.  [type], [enum], [properties] and [items] next
    to any of them are ignored. *)
Theorem mapType_precedence (fuel : nat) (s : Schema)
    (m : gmap string Schema) (o : GeneratorOptions) :
  (forall r, truthy_string (ref s) = Some r ->
     mapType fuel (Some s) m o = mapType fuel (Some (refTo r)) m o) /\
  (truthy_string (ref s) = None ->
     (forall l, oneOf s = Some l ->
        mapType fuel (Some s) m o = mapType fuel (Some (unionOf l)) m o) /\
     (forall l, oneOf s = None -> anyOf s = Some l ->
        mapType fuel (Some s) m o = mapType fuel (Some (unionOf l)) m o) /\
     (forall l, oneOf s = None -> anyOf s = None -> allOf s = Some l ->
        mapType fuel (Some s) m o = mapType fuel (Some (intersectionOf l)) m o)).
Proof.
  destruct fuel as [|fuel]; [repeat split; reflexivity |].
  split; [| intros Hr; split; [| split]].
  - intros r Hr. cbn [mapType refTo ref].
    now rewrite Hr, (truthy_string_idem _ _ Hr).
  - intros l H1. cbn [mapType unionOf ref oneOf truthy_string]. now rewrite Hr, H1.
  - intros l H1 H2. cbn [mapType unionOf ref oneOf truthy_string].
    now rewrite Hr, H1, H2.
  - intros l H1 H2 H3.
    cbn [mapType intersectionOf ref oneOf anyOf allOf truthy_string].
    now rewrite Hr, H1, H2, H3.
Qed.

Lemma mapType_precedence_witness :
  mapType 2 (Some (mkSchema (Some "string") (Some ["a"]) None None None
                     (Some [ofType "integer"; ofType "boolean"]) None None None))
    ∅ defaultOptions
  = Ok "number | boolean".
Proof.
  rewrite (proj1 (proj2 (proj2 (mapType_precedence 2
             (mkSchema (Some "string") (Some ["a"]) None None None
                (Some [ofType "integer"; ofType "boolean"]) None None None)
             ∅ defaultOptions) eq_refl))
           [ofType "integer"; ofType "boolean"] eq_refl eq_refl).
  reflexivity.
Defined.

(** ** Inline objects *)

(** X11. The [required] array matters only through which property names
    it contains: two schemas with the same properties whose [required]
    arrays hold the same ones of those names are rendered alike.  So an
    absent [required] is an empty one, and entries that name no property,
    repeated entries and the order of the entries change nothing. *)
Theorem required_only_by_membership (n : nat) (s s' : Schema)
    (ps : list (string * Schema)) (m : gmap string Schema) (w : bool)
    (o : GeneratorOptions)
    (Hp : properties s = Some ps) (Hp' : properties s' = Some ps)
    (Hreq : forall prop, prop ∈ ps.*1 -> requiredProp s prop = requiredProp s' prop) :
  inlineObject n (Some s) m w o = inlineObject n (Some s') m w o.
Proof.
  destruct n as [|n]; [reflexivity |].
  cbn [inlineObject]. rewrite Hp, Hp'. f_equal.
  apply array_map_ext. intros [prop propSchema] Hin.
  assert (Hprop : prop ∈ ps.*1)
    by (apply list_elem_of_fmap; now exists (prop, propSchema)).
  specialize (Hreq prop Hprop). unfold requiredProp in Hreq. now rewrite Hreq.
Qed.

Lemma required_only_by_membership_witness :
  inlineObject 2 (Some (object [("a", ofType "string"); ("b", ofType "string")]
                          (Some ["ghost"; "b"; "b"]))) ∅ true defaultOptions
  = inlineObject 2 (Some (object [("a", ofType "string"); ("b", ofType "string")]
                            (Some ["b"]))) ∅ true defaultOptions /\
  inlineObject 2 (Some (object [("a", ofType "string")] None)) ∅ true defaultOptions
  = inlineObject 2 (Some (object [("a", ofType "string")] (Some []))) ∅ true defaultOptions.
Proof.
  split.
  - apply (required_only_by_membership 2 _ _
             [("a", ofType "string"); ("b", ofType "string")]); try reflexivity.
    intros prop Hprop. cbn in Hprop.
    apply elem_of_cons in Hprop as [-> | Hprop]; [reflexivity |].
    apply list_elem_of_singleton in Hprop as ->. reflexivity.
  - apply (required_only_by_membership 2 _ _ [("a", ofType "string")]);
      reflexivity.
Defined.

(** X12. The braces do not depend on [withBraces]: the argument is never
    read, and every text that [inlineObject] returns starts with an
    opening brace and ends with a closing one. *)
Theorem inlineObject_always_braced (fuel : nat) (s : option Schema)
    (m : gmap string Schema) (w w' : bool) (o : GeneratorOptions) :
  inlineObject fuel s m w o = inlineObject fuel s m w' o /\
  forall t, inlineObject fuel s m w o = Ok t ->
    exists body, t = "{" +:+ body +:+ "}".
Proof.
  destruct fuel as [|fuel]; [split; [reflexivity | discriminate] |].
  destruct s as [s|]; [| split; [reflexivity | discriminate]].
  split; [reflexivity |].
  intros t. cbn [inlineObject]. destruct (properties s) as [ps|].
  - intros H. apply bind_Ok in H as (lines & _ & [= <-]).
    exists (nl +:+ join nl lines +:+ nl). now rewrite !str_app_assoc.
  - intros [= <-]. now exists EmptyString.
Qed.

Lemma inlineObject_always_braced_witness :
  inlineObject 2 (Some record3) ∅ false defaultOptions
  = inlineObject 2 (Some record3) ∅ true defaultOptions /\
  exists body,
    "{" +:+ nl +:+ "  b?: string;" +:+ nl +:+ "  a: number;" +:+ nl
        +:+ "  b2?: string;" +:+ nl +:+ "}" = "{" +:+ body +:+ "}".
Proof.
  destruct (inlineObject_always_braced 2 (Some record3) ∅ false true defaultOptions)
    as [Hw Hb].
  split; [exact Hw | apply Hb; reflexivity].
Defined.

(** ** Declarations of combinators and of everything else *)

(** X13. A variant of a top-level [oneOf], [anyOf] or [allOf] that is a
    reference is written by name whether or not [inlineRef] is set; when
    all the variants are references the declaration is the joined names,
    and it is produced without any call to the renderers: the schema
    mapping, the inlining option and the bound on nested calls do not
    matter. *)
Theorem ref_variants_never_inlined (fuel : nat) (name : string) (s : Schema)
    (m : gmap string Schema) (o : GeneratorOptions)
    (vs : list Schema) (sep : string)
    (He : enum s = None)
    (Hc : (js_or (oneOf s) (anyOf s) = Some vs /\ sep = " | ") \/
          (js_or (oneOf s) (anyOf s) = None /\ allOf s = Some vs /\ sep = " & "))
    (Hrefs : forall v, v ∈ vs -> is_Some (truthy_string (ref v))) :
  generateType fuel name s m o =
  Ok ("export type " +:+ prefixOf o +:+ name +:+ " = "
        +:+ join sep (map (fun v => refName (default EmptyString (truthy_string (ref v))) o) vs)
        +:+ ";").
Proof.
  rewrite (generateType_combinator _ _ _ _ _ vs sep He Hc).
  assert (E : array_map (variantType fuel m o) vs
              = Ok (map (fun v => refName (default EmptyString (truthy_string (ref v))) o) vs)).
  { clear Hc. induction vs as [|v vs IH]; [reflexivity |].
    cbn [array_map map].
    destruct (Hrefs v (list_elem_of_here _ _)) as [r Hr].
    rewrite (variantType_ref _ _ _ _ r Hr), Hr, IH; [reflexivity |].
    intros v' Hv'. apply Hrefs. now apply list_elem_of_further. }
  now rewrite E.
Qed.

Lemma ref_variants_never_inlined_witness :
  generateType 0 "Pet"
    (intersectionOf [refTo "#/components/schemas/Animal"; refTo "#/components/schemas/Named"])
    ∅ inlining
  = Ok "export type IPet = IAnimal & INamed;".
Proof.
  apply (ref_variants_never_inlined 0 "Pet"
           (intersectionOf [refTo "#/components/schemas/Animal";
                            refTo "#/components/schemas/Named"]) ∅ inlining
           [refTo "#/components/schemas/Animal"; refTo "#/components/schemas/Named"]
           " & " eq_refl).
  - right. repeat split; reflexivity.
  - intros v Hv. apply elem_of_cons in Hv as [-> | Hv]; [now eexists |].
    apply list_elem_of_singleton in Hv as ->. now eexists.
Defined.

(** X14. A top-level schema that has no [enum], no combinator and no
    [properties] and whose [type] is not [object] is declared as an alias
    of [any]: the declaration does not look at the type (a top-level
    [string], [integer] or [array] schema loses it) nor at a top-level
    [$ref] ([{$ref: B}] is not an alias of [B]). *)
Theorem top_level_fallback_is_any (fuel : nat) (name : string) (s : Schema)
    (m : gmap string Schema) (o : GeneratorOptions)
    (He : enum s = None)
    (H1 : oneOf s = None) (H2 : anyOf s = None) (H3 : allOf s = None)
    (Hp : properties s = None) (Ht : type s <> Some "object") :
  generateType fuel name s m o
  = Ok ("export type " +:+ prefixOf o +:+ name +:+ " = any;").
Proof.
  unfold generateType. rewrite He, H1, H2, H3, Hp. cbn [js_or].
  destruct (type s) as [t|]; [| reflexivity].
  destruct (String.eqb_spec t "object") as [-> | _]; [congruence | reflexivity].
Qed.

Lemma top_level_fallback_is_any_witness :
  generateType 0 "A" (refTo "#/components/schemas/B") roundTrip defaultOptions
    = Ok "export type IA = any;" /\
  generateType 0 "B" (ofType "string") roundTrip defaultOptions
    = Ok "export type IB = any;".
Proof.
  split;
    apply top_level_fallback_is_any; first [reflexivity | discriminate].
Defined.

(** ** The driver *)

Lemma generateType_returns (m : gmap string Schema) (o : GeneratorOptions)
    (name : string) (s : Schema) :
  truthy_bool (inlineRef o) = false ->
  exists t, forall fuel, calls s <= fuel -> generateType fuel name s m o = Ok t.
Proof.
  intros Hi.
  destruct (generateType_total m o Hi (calls s) name s) as [t Ht]; [lia |].
  exists t. intros fuel Hle.
  eapply below_Ok; [apply generateType_below, Hle | exact Ht].
Qed.

Lemma declarations_returned (m : gmap string Schema) (o : GeneratorOptions)
    (l : list (string * Schema)) :
  truthy_bool (inlineRef o) = false ->
  exists ds,
    length ds = length l /\
    forall fuel, max_list_with (fun e => calls e.2) l <= fuel ->
      Forall2 (fun e d => generateType fuel e.1 e.2 m o = Ok d) l ds.
Proof.
  intros Hi. induction l as [|[name s] l (ds & Hlen & Hds)].
  - exists []. split; [reflexivity | constructor].
  - destruct (generateType_returns m o name s Hi) as [d Hd].
    exists (d :: ds). split; [cbn; now rewrite Hlen |].
    intros fuel Hfuel. cbn [max_list_with fst snd] in Hfuel.
    constructor; [apply Hd; lia | apply Hds; lia].
Qed.

Section DriverFacts.

Variables (existsSync : string -> bool) (readFileSync : string -> string)
          (load : string -> option Document).

Local Abbreviation run := (generateFromYamlFile existsSync readFileSync load).

Variables (filePath : string) (doc : Document) (c : Components)
          (es : list (string * Schema)).

Hypothesis Hexists : existsSync filePath = true.
Hypothesis Hload : load (readFileSync filePath) = Some doc.
Hypothesis Hcomponents : components doc = Some c.
Hypothesis Hschemas : schemas c = Some es.

Lemma run_unfold fuel o :
  run fuel filePath o =
  outcome_of
    (ds <- array_map (fun e => generateType fuel e.1 e.2 (schemaMap es) o) es ;;
     Ok (join (nl +:+ nl) ds)).
Proof.
  unfold generateFromYamlFile. rewrite Hexists, Hload, Hcomponents, Hschemas.
  cbn [negb]. f_equal. f_equal. apply array_map_ext. now intros [name s] _.
Qed.

Lemma run_Returned fuel o text :
  run fuel filePath o = Returned text <->
  exists ds,
    Forall2 (fun e d => generateType fuel e.1 e.2 (schemaMap es) o = Ok d) es ds /\
    text = join (nl +:+ nl) ds.
Proof.
  rewrite run_unfold. split.
  - destruct (array_map _ es) as [ds| |] eqn:E; try discriminate.
    intros [= <-]. exists ds. split; [now apply array_map_Ok | reflexivity].
  - intros (ds & Hds & ->). apply array_map_Ok in Hds. now rewrite Hds.
Qed.

(** X15. The text the driver returns is made of one declaration per
    entry of [components.schemas], in the order of the entries, separated
    by an empty line, each generated against the whole mapping; and when
    references are not inlined the driver returns that text for every
    document, with no more nested calls than the deepest schema needs. *)
Theorem driver_output (o : GeneratorOptions) :
  (forall fuel text,
     run fuel filePath o = Returned text <->
     exists ds,
       Forall2 (fun e d => generateType fuel e.1 e.2 (schemaMap es) o = Ok d) es ds /\
       text = join (nl +:+ nl) ds) /\
  (truthy_bool (inlineRef o) = false ->
   exists ds,
     length ds = length es /\
     forall fuel, max_list_with (fun e => calls e.2) es <= fuel ->
       run fuel filePath o = Returned (join (nl +:+ nl) ds)).
Proof.
  split; [intros fuel text; apply run_Returned |].
  intros Hi.
  destruct (declarations_returned (schemaMap es) o es Hi) as (ds & Hlen & Hds).
  exists ds. split; [exact Hlen |].
  intros fuel Hfuel. apply run_Returned. exists ds. split; [auto | reflexivity].
Qed.

(** X16. One schema whose declaration cannot be generated leaves the
    whole run without output: when [generateType] does not return for
    some entry of [components.schemas], the driver returns no text at
    all, whatever the other entries are. *)
Theorem driver_all_or_nothing (fuel : nat) (o : GeneratorOptions)
    (name : string) (s : Schema)
    (Hin : (name, s) ∈ es)
    (Hfail : forall d, generateType fuel name s (schemaMap es) o <> Ok d) :
  forall text, run fuel filePath o <> Returned text.
Proof.
  intros text H. apply run_Returned in H as (ds & Hds & _).
  apply list_elem_of_lookup in Hin as [i Hi].
  destruct (Forall2_lookup_l _ _ _ _ _ Hds Hi) as (d & _ & Hd).
  exact (Hfail d Hd).
Qed.

End DriverFacts.

(** X17. Before any schema is looked at the driver can end in three ways:
    a path that does not exist throws the error [YAML file not found:]
    followed by the path; a file whose document is [undefined] throws a
    [TypeError]; and a document without [components], or without
    [components.schemas], or with no schema in it, gives the empty
    text. *)
Theorem driver_edge_cases (existsSync : string -> bool)
    (readFileSync : string -> string) (load : string -> option Document)
    (fuel : nat) (filePath : string) (o : GeneratorOptions) :
  (existsSync filePath = false ->
   generateFromYamlFile existsSync readFileSync load fuel filePath o
   = ThrewError ("YAML file not found: " +:+ filePath)) /\
  (existsSync filePath = true ->
   load (readFileSync filePath) = None ->
   generateFromYamlFile existsSync readFileSync load fuel filePath o
   = ThrewTypeError) /\
  (existsSync filePath = true ->
   forall doc, load (readFileSync filePath) = Some doc ->
     components doc = None \/
     (exists c, components doc = Some c /\
                (schemas c = None \/ schemas c = Some [])) ->
     generateFromYamlFile existsSync readFileSync load fuel filePath o
     = Returned EmptyString).
Proof.
  unfold generateFromYamlFile. split; [| split].
  - now intros ->.
  - now intros -> ->.
  - intros -> doc -> [-> | (c & -> & [-> | ->])]; reflexivity.
Qed.

Lemma driver_output_witness :
  exists ds,
    length ds = length apiSchemas /\
    forall fuel, max_list_with (fun e => calls e.2) apiSchemas <= fuel ->
      generateFromYamlFile apiExists apiRead apiLoad fuel "api.yaml" defaultOptions
      = Returned (join (nl +:+ nl) ds).
Proof.
  exact (proj2 (driver_output apiExists apiRead apiLoad "api.yaml"
                  (mkDocument (Some (mkComponents (Some apiSchemas))))
                  (mkComponents (Some apiSchemas)) apiSchemas
                  eq_refl eq_refl eq_refl eq_refl defaultOptions) eq_refl).
Defined.

Lemma driver_all_or_nothing_witness :
  ~ exists text,
      generateFromYamlFile apiExists apiRead apiLoad 3 "api.yaml" inlining
      = Returned text.
Proof.
  intros [text H]. revert text H.
  apply (driver_all_or_nothing apiExists apiRead apiLoad "api.yaml"
           (mkDocument (Some (mkComponents (Some apiSchemas))))
           (mkComponents (Some apiSchemas)) apiSchemas
           eq_refl eq_refl eq_refl eq_refl 3 inlining "Bad" dangling).
  - apply list_elem_of_further, list_elem_of_here.
  - intros d Hd. vm_compute in Hd. discriminate Hd.
Defined.

Lemma driver_edge_cases_witness :
  generateFromYamlFile apiExists apiRead apiLoad 0 "missing.yaml" defaultOptions
  = ThrewError "YAML file not found: missing.yaml".
Proof.
  exact (proj1 (driver_edge_cases apiExists apiRead apiLoad 0 "missing.yaml"
                  defaultOptions) eq_refl).
Defined.
